(** * Consistent-hash ring and replicating memcached client

    A shallow embedding of [distributed_memcached.py]:
    the class [ConsistentHashRing] (virtual points, primary and replica-set
    lookup) and the class [DistributedMemcachedClient] (set / get / delete
    fanned out over the replica set).

    Python dicts are finite maps ([gmap]), the Python set [used_names] is a
    [gset], Python ints are [Z], list indices are [nat].  The digest
    [hashlib.md5], the [pymemcache] client and [bytes.decode] are library
    code: they are section variables of the development. *)

From stdpp Require Import gmap strings list sorting pretty.
From Stdlib Require Import ZArith Lia.

#[local] Set Warnings "-clear-no-such-hyp".
Set Default Proof Using "Type".

(** ** Results of partial code *)

(** Exceptions the ring code can raise by itself. *)
Inductive exn := KeyError | IndexError.

(** A call returns a value, raises, or is still running when the fuel of
    the model is used up ([OutOfFuel]: the [while] loop has not ended yet). *)
Inductive res (A : Type) :=
  | Ok (a : A)
  | Raise (e : exn)
  | OutOfFuel.
Arguments Ok {A} a.
Arguments Raise {A} e.
Arguments OutOfFuel {A}.

(** ** The [bisect] module (binary search as the library writes it)

    The loops run on a counter that starts at the length of the list; the
    interval [hi - lo] shrinks at every turn, so the counter never runs
    out before the loop ends ([bisect_right_loop_fuel],
    [bisect_left_loop_fuel]). *)

Module bisect.

(** [bisect_right]: [while lo < hi: mid = (lo+hi)//2;
    if x < a[mid]: hi = mid else: lo = mid + 1]. *)
Fixpoint bisect_right_loop (fuel : nat) (a : list Z) (x : Z) (lo hi : nat) : nat :=
  match fuel with
  | O => lo
  | S fuel' =>
    if decide (lo < hi) then
      let mid := (lo + hi) `div` 2 in
      match a !! mid with
      | Some y =>
        if decide (x < y)%Z then bisect_right_loop fuel' a x lo mid
        else bisect_right_loop fuel' a x (mid + 1) hi
      | None => lo
      end
    else lo
  end.

Definition bisect_right (a : list Z) (x : Z) : nat :=
  bisect_right_loop (length a) a x 0 (length a).

(** [bisect_left]: [while lo < hi: mid = (lo+hi)//2;
    if a[mid] < x: lo = mid + 1 else: hi = mid]. *)
Fixpoint bisect_left_loop (fuel : nat) (a : list Z) (x : Z) (lo hi : nat) : nat :=
  match fuel with
  | O => lo
  | S fuel' =>
    if decide (lo < hi) then
      let mid := (lo + hi) `div` 2 in
      match a !! mid with
      | Some y =>
        if decide (y < x)%Z then bisect_left_loop fuel' a x (mid + 1) hi
        else bisect_left_loop fuel' a x lo mid
      | None => lo
      end
    else lo
  end.

Definition bisect_left (a : list Z) (x : Z) : nat :=
  bisect_left_loop (length a) a x 0 (length a).

(** [bisect.bisect] is an alias of [bisect_right]. *)
Definition bisect := bisect_right.

End bisect.

(** ** ConsistentHashRing *)

Section Ring.

(** The handle of one memcached node ([pymemcache.client.base.Client]). *)
Context {Client : Type}.

(** [int(hashlib.md5(key.encode()).hexdigest(), 16)]: any function of the
    key; nothing below depends on the digest chosen. *)
Variable _hash : string → Z.

Record ConsistentHashRing := mkRing {
  replicas : Z;                    (* virtual points per node *)
  ring : list Z;                   (* sorted list of hashes *)
  hash2node : gmap Z string;       (* h -> node_name *)
  nodes : gmap string Client       (* node_name -> client *)
}.

(** [ConsistentHashRing(replicas)]. *)
Definition new_ring (replicas : Z) : ConsistentHashRing :=
  {| replicas := replicas; ring := []; hash2node := ∅; nodes := ∅ |}.

(** The label [f"{node_name}:{i}"] of the [i]-th virtual point. *)
Definition point_label (node_name : string) (i : nat) : string :=
  node_name +:+ ":" +:+ pretty i.

(** The hashes of the virtual points of a node,
    for [i in range(self.replicas)]. *)
Definition points (replicas : Z) (node_name : string) : list Z :=
  (λ i, _hash (point_label node_name i)) <$> seq 0 (Z.to_nat replicas).

(** One turn of the [for] loop of [add_node]:
    [self.hash2node[h] = node_name; self.ring.append(h)]. *)
Definition add_point (node_name : string)
    (st : gmap Z string * list Z) (i : nat) : gmap Z string * list Z :=
  let h := _hash (point_label node_name i) in
  (<[h := node_name]> st.1, st.2 ++ [h]).

Definition add_node (s : ConsistentHashRing) (node_name : string)
    (client : Client) : ConsistentHashRing :=
  match nodes s !! node_name with
  | Some _ => s
  | None =>
    let st := foldl (add_point node_name) (hash2node s, ring s)
                (seq 0 (Z.to_nat (replicas s))) in
    {| replicas := replicas s;
       ring := merge_sort Z.le st.2;
       hash2node := st.1;
       nodes := <[node_name := client]> (nodes s) |}
  end.

(** One turn of the [for h in to_remove] loop of [remove_node]. *)
Definition remove_point (st : gmap Z string * list Z) (h : Z)
    : gmap Z string * list Z :=
  let idx := bisect.bisect_left st.2 h in
  (delete h st.1,
   if decide (idx < length st.2 ∧ st.2 !! idx = Some h)
   then delete idx st.2 else st.2).

(** [[h for h,n in self.hash2node.items() if n == node_name]].  The dict
    lists its entries in insertion order, the map in the order of its
    keys; on a sorted ring the loop that follows does not depend on the
    order ([remove_fold_order]). *)
Definition to_remove (hash2node : gmap Z string) (node_name : string) : list Z :=
  (filter (λ hn, hn.2 = node_name) (map_to_list hash2node)).*1.

Definition remove_node (s : ConsistentHashRing) (node_name : string)
    : ConsistentHashRing :=
  match nodes s !! node_name with
  | None => s
  | Some _ =>
    let st := foldl remove_point (hash2node s, ring s)
                (to_remove (hash2node s) node_name) in
    {| replicas := replicas s;
       ring := st.2;
       hash2node := st.1;
       nodes := delete node_name (nodes s) |}
  end.

(** [self.hash2node[self.ring[idx]]] followed by [self.nodes[node_name]]. *)
Definition get_node (s : ConsistentHashRing) (key : string)
    : res (option (string * Client)) :=
  match ring s with
  | [] => Ok None
  | _ =>
    let h := _hash key in
    let idx := bisect.bisect (ring s) h in
    let idx := if decide (idx = length (ring s)) then 0 else idx in
    match ring s !! idx with
    | None => Raise IndexError
    | Some p =>
      match hash2node s !! p with
      | None => Raise KeyError
      | Some node_name =>
        match nodes s !! node_name with
        | None => Raise KeyError
        | Some client => Ok (Some (node_name, client))
        end
      end
    end
  end.

(** The [while] loop of [get_nodes_for_key]; one unit of fuel per test of
    the loop condition. *)
Fixpoint collect (fuel : nat) (s : ConsistentHashRing) (count : Z) (i : nat)
    (found : list (string * Client)) (used_names : gset string)
    : res (list (string * Client)) :=
  match fuel with
  | O => OutOfFuel
  | S fuel' =>
    let ring_len := length (ring s) in
    if decide ((Z.of_nat (length found) < count)%Z ∧ 0 < ring_len) then
      let i := if decide (i = ring_len) then 0 else i in
      match ring s !! i with
      | None => Raise IndexError
      | Some p =>
        match hash2node s !! p with
        | None => Raise KeyError
        | Some node_name =>
          let fu :=
            match nodes s !! node_name with
            | Some client =>
              if decide (node_name ∉ used_names)
              then (found ++ [(node_name, client)], used_names ∪ {[node_name]})
              else (found, used_names)
            | None => (found, used_names)
            end in
          if decide (size fu.2 = size (nodes s)) then Ok fu.1
          else collect fuel' s count (i + 1) fu.1 fu.2
        end
      end
    else Ok found
  end.

Definition get_nodes_for_key (fuel : nat) (s : ConsistentHashRing)
    (key : string) (count : Z) : res (list (string * Client)) :=
  match ring s with
  | [] => Ok []
  | _ =>
    let h := _hash key in
    let idx := bisect.bisect (ring s) h in
    collect fuel s count idx [] ∅
  end.

(** Membership changes, as a caller issues them. *)
Inductive op :=
  | AddNode (node_name : string) (client : Client)
  | RemoveNode (node_name : string).

Definition apply_op (s : ConsistentHashRing) (o : op) : ConsistentHashRing :=
  match o with
  | AddNode node_name client => add_node s node_name client
  | RemoveNode node_name => remove_node s node_name
  end.

(** The ring after a history of membership changes on a new ring. *)
Definition run (replicas : Z) (ops : list op) : ConsistentHashRing :=
  foldl apply_op (new_ring replicas) ops.

End Ring.

Arguments ConsistentHashRing : clear implicits.
Arguments op : clear implicits.

(** ** DistributedMemcachedClient *)

(** Values that travel to and from a node.  A Python [str] is kept as its
    UTF-8 encoding, a [bytes] object as its bytes. *)
Inductive PyVal :=
  | PyBytes (b : string)
  | PyStr (s : string)
  | PyInt (z : Z).

(** How a call on a node handle ends: it returns, or it raises an
    [Exception] (refused connection, timeout, protocol error). *)
Inductive reply (A : Type) :=
  | Returned (a : A)
  | Raised.
Arguments Returned {A} a.
Arguments Raised {A}.

(** The remote calls a client operation has made, oldest first. *)
Inductive call :=
  | SetCall (node_name : string) (ok : bool)
  | GetCall (node_name : string) (r : reply (option PyVal))
  | DeleteCall (node_name : string) (ok : bool).

Module DistributedMemcachedClient.
Section Client.

Context {Client World : Type}.
Variable _hash : string → Z.

(** [base.Client((host, port), connect_timeout=timeout, timeout=timeout)]. *)
Variable connect : string → Z → Z → Client.
(** [client.set(key, value, expire=ttl)], [client.get(key)] and
    [client.delete(key)] against the state of the fleet. *)
Variable client_set : Client → string → PyVal → Z → World → reply unit * World.
Variable client_get : Client → string → World → reply (option PyVal) * World.
Variable client_delete : Client → string → World → reply unit * World.
(** [v.decode()]: [None] when it raises. *)
Variable decode : string → option string.

(** The fleet together with the record of the calls made on it.  The
    [trace] is not a variable of the source: it keeps what was called and
    in which order, so that statements can speak about the calls. *)
Record Env := mkEnv {
  world : World;
  trace : list call
}.

Record t := mkClient {
  hash_ring : ConsistentHashRing Client;     (* self.ring *)
  replication_factor : Z;
  key_map : gmap string (list string)        (* key -> list of node_names *)
}.

(** [__init__(addrs, replicas, replication_factor, timeout)]. *)
Definition init (addrs : list (string * Z)) (replicas replication_factor timeout : Z)
    : t :=
  {| hash_ring :=
       foldl (λ r hp, add_node _hash r (hp.1 +:+ ":" +:+ pretty hp.2)
                        (connect hp.1 hp.2 timeout))
             (new_ring replicas) addrs;
     replication_factor := Z.max 1 replication_factor;
     key_map := ∅ |}.

(** Local state of the [for] loop of [set]. *)
Record set_state := mkSetState {
  set_results : gmap string bool;
  set_success : bool;
  stored_nodes : list string;
  set_env : Env
}.

Definition set_step (key : string) (value : PyVal) (ttl : Z)
    (st : set_state) (node : string * Client) : set_state :=
  match client_set node.2 key value ttl (world (set_env st)) with
  | (Returned _, w) =>
    {| set_results := <[node.1 := true]> (set_results st);
       set_success := true;
       stored_nodes := stored_nodes st ++ [node.1];
       set_env := {| world := w;
                     trace := trace (set_env st) ++ [SetCall node.1 true] |} |}
  | (Raised, w) =>
    {| set_results := <[node.1 := false]> (set_results st);
       set_success := set_success st;
       stored_nodes := stored_nodes st;
       set_env := {| world := w;
                     trace := trace (set_env st) ++ [SetCall node.1 false] |} |}
  end.

Definition set (fuel : nat) (c : t) (key : string) (value : PyVal) (ttl : Z)
    (e : Env) : res (bool * gmap string bool * t * Env) :=
  match get_nodes_for_key _hash fuel (hash_ring c) key (replication_factor c) with
  | Ok nodes =>
    let st := foldl (set_step key value ttl)
                {| set_results := ∅; set_success := false;
                   stored_nodes := []; set_env := e |} nodes in
    Ok (set_success st, set_results st,
        {| hash_ring := hash_ring c;
           replication_factor := replication_factor c;
           key_map := <[key := stored_nodes st]> (key_map c) |},
        set_env st)
  | Raise x => Raise x
  | OutOfFuel => OutOfFuel
  end.

(** What [get] hands back for a value [v] that is not [None]. *)
Definition present_value (v : PyVal) : PyVal :=
  match v with
  | PyBytes b =>
    match decode b with
    | Some s => PyStr s
    | None => v
    end
  | _ => v
  end.

Fixpoint get_loop (key : string) (nodes : list (string * Client)) (e : Env)
    : option PyVal * Env :=
  match nodes with
  | [] => (None, e)
  | (node_name, client) :: rest =>
    let (r, w) := client_get client key (world e) in
    let e' := {| world := w; trace := trace e ++ [GetCall node_name r] |} in
    match r with
    | Returned (Some v) => (Some (present_value v), e')
    | Returned None => get_loop key rest e'
    | Raised => get_loop key rest e'
    end
  end.

Definition get (fuel : nat) (c : t) (key : string) (e : Env)
    : res (option PyVal * Env) :=
  match get_nodes_for_key _hash fuel (hash_ring c) key (replication_factor c) with
  | Ok nodes => Ok (get_loop key nodes e)
  | Raise x => Raise x
  | OutOfFuel => OutOfFuel
  end.

(** Local state of the [for] loop of [delete]. *)
Definition delete_step (key : string) (st : gmap string bool * Env)
    (node : string * Client) : gmap string bool * Env :=
  match client_delete node.2 key (world st.2) with
  | (Returned _, w) =>
    (<[node.1 := true]> st.1,
     {| world := w; trace := trace st.2 ++ [DeleteCall node.1 true] |})
  | (Raised, w) =>
    (<[node.1 := false]> st.1,
     {| world := w; trace := trace st.2 ++ [DeleteCall node.1 false] |})
  end.

(** [delete(key)]; [del self.key_map[key]] is guarded by [key in
    self.key_map], so it is the map deletion. *)
Definition delete_key (fuel : nat) (c : t) (key : string) (e : Env)
    : res (gmap string bool * t * Env) :=
  match get_nodes_for_key _hash fuel (hash_ring c) key (replication_factor c) with
  | Ok nodes =>
    let st := foldl (delete_step key) (∅, e) nodes in
    Ok (st.1,
        {| hash_ring := hash_ring c;
           replication_factor := replication_factor c;
           key_map := delete key (key_map c) |},
        st.2)
  | Raise x => Raise x
  | OutOfFuel => OutOfFuel
  end.

(** [counts[n] = counts.get(n, 0) + 1]. *)
Definition count_node (counts : gmap string Z) (n : string) : gmap string Z :=
  <[n := (default 0 (counts !! n) + 1)%Z]> counts.

(** [distribution_stats()]: the two nested [for] loops over
    [self.key_map.items()] and the node list of each key.  The counts do
    not depend on the order in which the keys come. *)
Definition distribution_stats (c : t) : gmap string Z :=
  foldl (λ counts kv, foldl count_node counts kv.2) ∅ (map_to_list (key_map c)).

(** The calls a program makes on one client, one after the other; a call
    that raises or does not end stops the program. *)
Inductive cmd :=
  | CallSet (key : string) (value : PyVal) (ttl : Z)
  | CallGet (key : string)
  | CallDelete (key : string).

Definition exec (fuel : nat) (st : res (t * Env)) (m : cmd) : res (t * Env) :=
  match st with
  | Ok (c, e) =>
    match m with
    | CallSet key value ttl =>
      match set fuel c key value ttl e with
      | Ok (_, _, c', e') => Ok (c', e')
      | Raise x => Raise x
      | OutOfFuel => OutOfFuel
      end
    | CallGet key =>
      match get fuel c key e with
      | Ok (_, e') => Ok (c, e')
      | Raise x => Raise x
      | OutOfFuel => OutOfFuel
      end
    | CallDelete key =>
      match delete_key fuel c key e with
      | Ok (_, c', e') => Ok (c', e')
      | Raise x => Raise x
      | OutOfFuel => OutOfFuel
      end
    end
  | Raise x => Raise x
  | OutOfFuel => OutOfFuel
  end.

Definition session (fuel : nat) (c : t) (e : Env) (cmds : list cmd)
    : res (t * Env) :=
  foldl (exec fuel) (Ok (c, e)) cmds.

End Client.

Arguments t : clear implicits.
Arguments Env : clear implicits.
Arguments set_state : clear implicits.

End DistributedMemcachedClient.

Module DMC := DistributedMemcachedClient.

(** ** Notions the statements use *)

(** The ring successor of [h] in the words of the design: the first point
    whose value is greater than [h], or the first point when there is none. *)
Definition ring_successor (pts : list Z) (h : Z) : option Z :=
  match filter (λ p, (h < p)%Z) pts with
  | p :: _ => Some p
  | [] => head pts
  end.

(** [p] is the ring successor of [h] among the points [pts], said without
    positions: the least point greater than [h], or the least point of all
    when no point is greater than [h]. *)
Definition is_successor (pts : list Z) (h p : Z) : Prop :=
  p ∈ pts ∧
  (((h < p)%Z ∧ ∀ q, q ∈ pts → (h < q)%Z → (p ≤ q)%Z) ∨
   ((∀ q, q ∈ pts → (q ≤ h)%Z) ∧ ∀ q, q ∈ pts → (p ≤ q)%Z)).

Section consistency.
Context {Client : Type}.
Variable _hash : string → Z.
Implicit Types (s : ConsistentHashRing Client).

(** Every owner recorded in [hash2node] is a registered node. *)
Definition owners_registered s : Prop :=
  map_Forall (λ _ n, is_Some (nodes s !! n)) (hash2node s).

(** Every point of the ring has an owner, and the owner is registered. *)
Definition points_owned s : Prop :=
  Forall (λ p, is_Some (hash2node s !! p ≫= λ n, nodes s !! n)) (ring s).

(** Every registered node owns at least one point of the ring. *)
Definition nodes_covered s : Prop :=
  map_Forall (λ n _, Exists (λ p, hash2node s !! p = Some n) (ring s)) (nodes s).

(** Every point of the ring is a key of [hash2node]. *)
Definition points_keyed s : Prop :=
  Forall (λ p, is_Some (hash2node s !! p)) (ring s).

(** A history of [add_node] calls only, as the constructor of the client
    issues it. *)
Definition add_only (ops : list (op Client)) : Prop :=
  Forall (λ o, match o with AddNode _ _ => True | RemoveNode _ => False end) ops.

(** What the [while] loop of [get_nodes_for_key] keeps true between turns. *)
Definition walk_inv s (count : Z) (found : list (string * Client))
    (used_names : gset string) : Prop :=
  used_names = list_to_set found.*1 ∧
  NoDup found.*1 ∧
  used_names ⊆ dom (nodes s) ∧
  (Z.of_nat (length found) ≤ count)%Z ∧
  size used_names ≠ size (nodes s).

(** A replica set as the design promises it. *)
Definition replica_set_ok s (count : Z) (found : list (string * Client)) : Prop :=
  NoDup found.*1 ∧
  Z.of_nat (length found) = Z.min count (Z.of_nat (size (nodes s))).

(** What holds of a ring whose history had no colliding points: the ring
    lists each point once, the points of the ring are the keys of
    [hash2node], and every registered node owns a point as soon as nodes
    get at least one point each. *)
Definition collision_free_inv s : Prop :=
  NoDup (ring s) ∧
  (∀ p, p ∈ ring s ↔ is_Some (hash2node s !! p)) ∧
  ((1 ≤ replicas s)%Z → nodes_covered s).

(** A history in which no inserted point meets a point that is already on
    the ring, nor another point of the same node. *)
Fixpoint collision_free s (ops : list (op Client)) : bool :=
  match ops with
  | [] => true
  | o :: ops' =>
    match o with
    | AddNode node_name _ =>
      bool_decide (is_Some (nodes s !! node_name)) ||
      bool_decide (NoDup (points _hash (replicas s) node_name) ∧
                   Forall (λ p, p ∉ ring s) (points _hash (replicas s) node_name))
    | RemoveNode _ => true
    end && collision_free (apply_op _hash s o) ops'
  end.

(** The points of the registered nodes, and of them only, are the keys of
    [hash2node], each with its node as owner; the points of a registered
    node are distinct. *)
Definition membership_inv (V : Z) s : Prop :=
  replicas s = V ∧
  (∀ p n, hash2node s !! p = Some n ↔
          is_Some (nodes s !! n) ∧ p ∈ points _hash V n) ∧
  (∀ n, is_Some (nodes s !! n) → NoDup (points _hash V n)) ∧
  length (ring s) = Z.to_nat V * size (nodes s).

End consistency.

(** Every entry of the bookkeeping lists distinct names of registered
    nodes. *)
Definition bookkeeping_ok {Client : Type} (c : DMC.t Client) : Prop :=
  map_Forall (λ _ names,
      NoDup names ∧
      Forall (λ n, is_Some (nodes (DMC.hash_ring c) !! n)) names)
    (DMC.key_map c).

Global Instance bookkeeping_ok_dec {Client : Type} (c : DMC.t Client) :
  Decision (bookkeeping_ok c).
Proof. unfold bookkeeping_ok. apply _. Defined.

Global Instance points_owned_dec {Client : Type} (s : ConsistentHashRing Client) :
  Decision (points_owned s).
Proof. unfold points_owned. apply _. Defined.

Global Instance nodes_covered_dec {Client : Type} (s : ConsistentHashRing Client) :
  Decision (nodes_covered s).
Proof. unfold nodes_covered. apply _. Defined.

(** Whether a call returned; a call that raised did not. *)
Definition returned {R : Type} (r : reply R) : bool :=
  match r with
  | Returned _ => true
  | Raised => false
  end.

(** The remote call [f] made on the handle of every node of [nodes], one
    node after the other from the fleet [w], each call made whatever the
    earlier ones answered: the replies in the order of the calls, and the
    fleet as the last call leaves it.  This is the design's "attempt the
    operation on each node independently"; the loops of the client are
    compared with it. *)
Fixpoint call_each {Client World R : Type} (f : Client → World → reply R * World)
    (nodes : list (string * Client)) (w : World) : list (reply R) * World :=
  match nodes with
  | [] => ([], w)
  | node :: rest =>
    let rw := f node.2 w in
    let out := call_each f rest rw.2 in
    (rw.1 :: out.1, out.2)
  end.

(** A reply that makes [get] go on to the next replica. *)
Definition is_miss (r : reply (option PyVal)) : Prop :=
  r = Returned None ∨ r = Raised.

(** ** A concrete fleet, to run the model *)

(** A digest for small examples: the sum of the bytes of the key. *)
Definition byte_sum (key : string) : Z :=
  foldr (λ c acc, Z.of_nat (Ascii.nat_of_ascii c) + acc)%Z 0%Z
        (String.list_ascii_of_string key).

(** Node handles are port numbers; the fleet is the list of the entries
    stored so far, newest first; calls on the handles listed in [down]
    raise. *)
Definition sim_connect (host : string) (port timeout : Z) : Z := port.

Definition sim_set (down : list Z) (client : Z) (key : string) (value : PyVal)
    (ttl : Z) (w : list (Z * string * PyVal))
    : reply unit * list (Z * string * PyVal) :=
  if decide (client ∈ down) then (Raised, w)
  else (Returned (), (client, key, value) :: w).

Definition sim_get (down : list Z) (client : Z) (key : string)
    (w : list (Z * string * PyVal))
    : reply (option PyVal) * list (Z * string * PyVal) :=
  if decide (client ∈ down) then (Raised, w)
  else (Returned (snd <$> head (filter (λ e, e.1 = (client, key)) w)), w).

Definition sim_delete (down : list Z) (client : Z) (key : string)
    (w : list (Z * string * PyVal))
    : reply unit * list (Z * string * PyVal) :=
  if decide (client ∈ down) then (Raised, w)
  else (Returned (), filter (λ e, e.1 ≠ (client, key)) w).

(** A decoder for the examples: bytes below 128 are text. *)
Definition ascii_decode (b : string) : option string :=
  if forallb (λ c, Nat.ltb (Ascii.nat_of_ascii c) 128) (String.list_ascii_of_string b)
  then Some b else None.

(** The two addresses the command-line tool uses by default, and a third
    one whose label has the same bytes in another order. *)
Definition node_a : string := "127.0.0.1:11211".
Definition node_b : string := "127.0.0.1:11212".
Definition node_c : string := "127.0.0.1:11121".

Definition two_nodes : list (op Z) :=
  [AddNode node_a 11211%Z; AddNode node_b 11212%Z].

Definition colliding_nodes : list (op Z) :=
  [AddNode node_a 11211%Z; AddNode node_c 11121%Z].

(** [DistributedMemcachedClient(addrs, replicas=1, replication_factor=R)]
    on the two default addresses. *)
Definition demo_client (R : Z) : DMC.t Z :=
  DMC.init byte_sum sim_connect
    [("127.0.0.1", 11211%Z); ("127.0.0.1", 11212%Z)] 1 R 1.

(** [DistributedMemcachedClient([("127.0.0.1", 11211)], replicas=1)]. *)
Definition single_client : DMC.t Z :=
  DMC.init byte_sum sim_connect [("127.0.0.1", 11211%Z)] 1 1 1.

Definition empty_fleet : DMC.Env (list (Z * string * PyVal)) :=
  DMC.mkEnv [] [].

(** * Verification *)

(** ** Binary search on sorted lists *)

Section bisect_facts.
Import bisect.

Lemma mid_bounds (lo hi : nat) : lo < hi → lo ≤ (lo + hi) `div` 2 < hi.
Proof.
  intros Hlt. split.
  - apply Nat.div_le_lower_bound; lia.
  - apply Nat.Div0.div_lt_upper_bound; lia.
Qed.

(** The counter of the loops is never the reason to stop: any two
    counters that cover the interval give the same index, on every list. *)
Lemma bisect_right_loop_fuel (a : list Z) (x : Z) (f1 f2 lo hi : nat) :
  hi - lo ≤ f1 → hi - lo ≤ f2 →
  bisect_right_loop f1 a x lo hi = bisect_right_loop f2 a x lo hi.
Proof.
  revert f2 lo hi. induction f1 as [|f1 IH]; intros [|f2] lo hi H1 H2;
    cbn [bisect_right_loop]; try done.
  - by rewrite decide_False by lia.
  - by rewrite decide_False by lia.
  - case_decide as Hlt; [|done]. pose proof (mid_bounds lo hi Hlt).
    destruct (a !! _); [|done]. case_decide; apply IH; lia.
Qed.

Lemma bisect_left_loop_fuel (a : list Z) (x : Z) (f1 f2 lo hi : nat) :
  hi - lo ≤ f1 → hi - lo ≤ f2 →
  bisect_left_loop f1 a x lo hi = bisect_left_loop f2 a x lo hi.
Proof.
  revert f2 lo hi. induction f1 as [|f1 IH]; intros [|f2] lo hi H1 H2;
    cbn [bisect_left_loop]; try done.
  - by rewrite decide_False by lia.
  - by rewrite decide_False by lia.
  - case_decide as Hlt; [|done]. pose proof (mid_bounds lo hi Hlt).
    destruct (a !! _); [|done]. case_decide; apply IH; lia.
Qed.

Lemma sorted_lookup_le (a : list Z) (i j : nat) (u v : Z) :
  StronglySorted Z.le a → i ≤ j → a !! i = Some u → a !! j = Some v → (u ≤ v)%Z.
Proof.
  intros Hs. revert i j. induction Hs as [|y a Hs IH Hall]; intros i j Hij Hi Hj.
  - by rewrite lookup_nil in Hi.
  - destruct i as [|i], j as [|j]; simplify_eq/=; try lia.
    + rewrite Forall_forall in Hall. apply Hall. by eapply list_elem_of_lookup_2.
    + eapply IH; [|done..]. lia.
Qed.

(** The loop invariant of [bisect_right]: everything left of [lo] is [≤ x],
    everything from [hi] on is [> x]. *)
Lemma bisect_right_loop_spec (a : list Z) (x : Z) (fuel lo hi : nat) :
  StronglySorted Z.le a →
  lo ≤ hi ≤ length a → hi - lo ≤ fuel →
  (∀ j y, j < lo → a !! j = Some y → (y ≤ x)%Z) →
  (∀ j y, hi ≤ j → a !! j = Some y → (x < y)%Z) →
  let r := bisect_right_loop fuel a x lo hi in
  r ≤ length a ∧
  (∀ j y, j < r → a !! j = Some y → (y ≤ x)%Z) ∧
  (∀ j y, r ≤ j → a !! j = Some y → (x < y)%Z).
Proof.
  intros Hs. revert lo hi.
  induction fuel as [|fuel IH]; intros lo hi Hb Hf Hlo Hhi; cbn [bisect_right_loop].
  - assert (lo = hi) as -> by lia. split; [lia|]. split; done.
  - case_decide as Hlt.
    + pose proof (mid_bounds lo hi Hlt) as Hmid.
      destruct (lookup_lt_is_Some_2 a ((lo + hi) `div` 2)) as [y Hy]; [lia|].
      rewrite Hy. case_decide as Hxy.
      * apply IH; [lia|lia|done|].
        intros j z Hj Hz. pose proof (sorted_lookup_le _ _ _ _ _ Hs Hj Hy Hz). lia.
      * apply IH; [lia|lia| |done].
        intros j z Hj Hz.
        assert (j ≤ (lo + hi) `div` 2) as Hj' by lia.
        pose proof (sorted_lookup_le _ _ _ _ _ Hs Hj' Hz Hy). lia.
    + assert (lo = hi) as -> by lia. split; [lia|]. split; done.
Qed.

Lemma bisect_right_spec (a : list Z) (x : Z) :
  StronglySorted Z.le a →
  bisect_right a x ≤ length a ∧
  (∀ j y, j < bisect_right a x → a !! j = Some y → (y ≤ x)%Z) ∧
  (∀ j y, bisect_right a x ≤ j → a !! j = Some y → (x < y)%Z).
Proof.
  intros Hs. apply bisect_right_loop_spec; [done|lia|lia|lia|].
  intros j y Hj Hy. apply lookup_lt_Some in Hy. lia.
Qed.

(** Without any assumption on the list the result is still an index
    between [lo] and [hi]. *)
Lemma bisect_right_loop_range (a : list Z) (x : Z) (fuel lo hi : nat) :
  lo ≤ hi → lo ≤ bisect_right_loop fuel a x lo hi ≤ hi.
Proof.
  revert lo hi. induction fuel as [|fuel IH]; intros lo hi Hb; cbn [bisect_right_loop]; [lia|].
  case_decide as Hlt; [|lia].
  pose proof (mid_bounds lo hi Hlt) as Hmid.
  destruct (a !! _); [|lia].
  case_decide.
  - specialize (IH lo ((lo + hi) `div` 2)). lia.
  - specialize (IH ((lo + hi) `div` 2 + 1) hi). lia.
Qed.

Lemma bisect_right_le_length (a : list Z) (x : Z) : bisect_right a x ≤ length a.
Proof. unfold bisect_right. pose proof (bisect_right_loop_range a x (length a) 0 (length a)). lia. Qed.

Lemma bisect_left_loop_spec (a : list Z) (x : Z) (fuel lo hi : nat) :
  StronglySorted Z.le a →
  lo ≤ hi ≤ length a → hi - lo ≤ fuel →
  (∀ j y, j < lo → a !! j = Some y → (y < x)%Z) →
  (∀ j y, hi ≤ j → a !! j = Some y → (x ≤ y)%Z) →
  let r := bisect_left_loop fuel a x lo hi in
  r ≤ length a ∧
  (∀ j y, j < r → a !! j = Some y → (y < x)%Z) ∧
  (∀ j y, r ≤ j → a !! j = Some y → (x ≤ y)%Z).
Proof.
  intros Hs. revert lo hi.
  induction fuel as [|fuel IH]; intros lo hi Hb Hf Hlo Hhi; cbn [bisect_left_loop].
  - assert (lo = hi) as -> by lia. split; [lia|]. split; done.
  - case_decide as Hlt.
    + pose proof (mid_bounds lo hi Hlt) as Hmid.
      destruct (lookup_lt_is_Some_2 a ((lo + hi) `div` 2)) as [y Hy]; [lia|].
      rewrite Hy. case_decide as Hxy.
      * apply IH; [lia|lia| |done].
        intros j z Hj Hz.
        assert (j ≤ (lo + hi) `div` 2) as Hj' by lia.
        pose proof (sorted_lookup_le _ _ _ _ _ Hs Hj' Hz Hy). lia.
      * apply IH; [lia|lia|done|].
        intros j z Hj Hz. pose proof (sorted_lookup_le _ _ _ _ _ Hs Hj Hy Hz). lia.
    + assert (lo = hi) as -> by lia. split; [lia|]. split; done.
Qed.

Lemma bisect_left_spec (a : list Z) (x : Z) :
  StronglySorted Z.le a →
  bisect_left a x ≤ length a ∧
  (∀ j y, j < bisect_left a x → a !! j = Some y → (y < x)%Z) ∧
  (∀ j y, bisect_left a x ≤ j → a !! j = Some y → (x ≤ y)%Z).
Proof.
  intros Hs. apply bisect_left_loop_spec; [done|lia|lia|lia|].
  intros j y Hj Hy. apply lookup_lt_Some in Hy. lia.
Qed.

(** On a sorted list that contains [x], [bisect_left] points at [x]. *)
Lemma bisect_left_elem_of (a : list Z) (x : Z) :
  StronglySorted Z.le a → x ∈ a → a !! bisect_left a x = Some x.
Proof.
  intros Hs [k Hk]%list_elem_of_lookup.
  destruct (bisect_left_spec a x Hs) as (Hlen & Hlt & Hge).
  assert (bisect_left a x ≤ k) as Hle.
  { destruct (decide (bisect_left a x ≤ k)); [done|].
    assert (x < x)%Z; [|lia]. apply (Hlt k x); [lia|done]. }
  destruct (lookup_lt_is_Some_2 a (bisect_left a x)) as [y Hy].
  { apply lookup_lt_Some in Hk. lia. }
  pose proof (Hge _ _ (Nat.le_refl _) Hy).
  pose proof (sorted_lookup_le _ _ _ _ _ Hs Hle Hy Hk).
  rewrite Hy. f_equal. lia.
Qed.

End bisect_facts.

(** ** The loop of the replica-set lookup *)

Section walk_facts.
Context {Client : Type}.
Implicit Types (s : ConsistentHashRing Client).

Lemma collect_wrap (fuel : nat) s (count : Z) found used :
  collect fuel s count (length (ring s)) found used =
  collect fuel s count 0 found used.
Proof.
  destruct fuel as [|fuel]; [done|]. cbn [collect].
  case_decide; [|done]. rewrite decide_True by done.
  by destruct (decide (0 = length (ring s))).
Qed.

Lemma walk_inv_size s (count : Z) found used :
  walk_inv s count found used →
  size used = length found ∧ length found < size (nodes s).
Proof.
  intros (-> & Hnd & Hsub & Hle & Hne).
  assert (size (list_to_set (C:=gset string) found.*1) = length found) as Hsz.
  { rewrite size_list_to_set by done. by rewrite length_fmap. }
  split; [done|]. apply subseteq_size in Hsub. rewrite size_dom in Hsub. lia.
Qed.

(** [k] turns of the loop from position [i], without passing the end of
    the ring: either the loop has ended with a replica set as promised, or
    it stands at position [i + k] and has seen the owners of all the points
    in between. *)
Lemma collect_lap s (count : Z) :
  points_owned s →
  ∀ (k i : nat) found used (f : nat),
    i + k ≤ length (ring s) → walk_inv s count found used → 1 ≤ f →
    (∃ out, collect (k + f) s count i found used = Ok out ∧
            replica_set_ok s count out) ∨
    (∃ found' used',
        collect (k + f) s count i found used = collect f s count (i + k) found' used' ∧
        walk_inv s count found' used' ∧ used ⊆ used' ∧
        ∀ j p n, i ≤ j < i + k → ring s !! j = Some p →
                 hash2node s !! p = Some n → n ∈ used').
Proof.
  intros Hpo. induction k as [|k IH]; intros i found used f Hik Hinv Hf.
  { right. exists found, used. rewrite Nat.add_0_r. simpl.
    split; [done|]. split; [done|]. split; [done|]. intros; lia. }
  destruct (walk_inv_size _ _ _ _ Hinv) as [Hsz Hlt].
  pose proof Hinv as (Hused & Hnd & Hsub & Hle & Hne).
  cbn [Nat.add collect]. case_decide as Hcond.
  2: { left. exists found. split; [done|]. split; [done|]. lia. }
  destruct Hcond as [Hcnt Hlen].
  rewrite (decide_False (P := i = _)) by lia.
  destruct (lookup_lt_is_Some_2 (ring s) i) as [p Hp]; [lia|]. rewrite Hp.
  pose proof (proj1 (Forall_forall _ _) Hpo p (list_elem_of_lookup_2 _ _ _ Hp)) as [c Hc].
  destruct (hash2node s !! p) as [n|] eqn:Hn; [|done]. simpl in Hc. rewrite Hc.
  assert (n ∈ dom (nodes s)) as Hndom by (apply elem_of_dom; by eexists).
  destruct (decide (n ∉ used)) as [Hfresh|Hold]; cbn [fst snd].
  - (* a node met for the first time *)
    assert (n ∉ found.*1) as Hfresh'.
    { intros Hin. apply Hfresh. rewrite Hused. by apply elem_of_list_to_set. }
    assert (NoDup (found ++ [(n, c)]).*1) as Hnd'.
    { rewrite fmap_app. apply NoDup_app. split; [done|]. split.
      - intros x Hx Hx'. apply list_elem_of_singleton in Hx'. by subst.
      - apply NoDup_singleton. }
    assert (size (used ∪ {[n]}) = S (length found)) as Hsz'.
    { rewrite size_union by set_solver. rewrite size_singleton. lia. }
    case_decide as Hfull.
    + left. eexists. split; [done|]. split; [done|].
      rewrite length_app. simpl. lia.
    + destruct (IH (i + 1) (found ++ [(n, c)]) (used ∪ {[n]}) f) as
        [(r & Hr & Hok)|(found' & used' & Hr & Hinv' & Hsub' & Hseen)]; [lia| |done| |].
      * split; [|split; [done|split; [set_solver|split; [|done]]]].
        -- rewrite fmap_app, list_to_set_app_L, Hused. simpl. set_solver.
        -- rewrite length_app. simpl. lia.
      * left. by exists r.
      * right. exists found', used'. replace (i + S k) with (i + 1 + k) by lia.
        split; [done|]. split; [done|]. split; [set_solver|].
        intros j p' n' Hj Hp' Hn'. destruct (decide (j = i)) as [->|Hji].
        -- simplify_eq. set_solver.
        -- eapply Hseen; [|done..]. lia.
  - (* a node already in the list *)
    rewrite decide_False by done.
    destruct (IH (i + 1) found used f) as
      [(r & Hr & Hok)|(found' & used' & Hr & Hinv' & Hsub' & Hseen)]; [lia|done|done| |].
    + left. by exists r.
    + right. exists found', used'. replace (i + S k) with (i + 1 + k) by lia.
      split; [done|]. split; [done|]. split; [done|].
      intros j p' n' Hj Hp' Hn'. destruct (decide (j = i)) as [->|Hji].
      * simplify_eq. apply Hsub'. by apply dec_stable in Hold.
      * eapply Hseen; [|done..]. lia.
Qed.

(** More fuel does not change an answer the loop has given. *)
Lemma collect_fuel_mono s (count : Z) (f f' i : nat) found used :
  f ≤ f' → collect f s count i found used ≠ OutOfFuel →
  collect f' s count i found used = collect f s count i found used.
Proof.
  revert f' i found used. induction f as [|f IH]; intros f' i found used Hle;
    cbn [collect]; [done|].
  destruct f' as [|f']; [lia|]. cbn [collect].
  case_decide; [|done].
  destruct (ring s !! _) as [p|]; [|done].
  destruct (hash2node s !! p) as [n|]; [|done]. cbv zeta.
  match goal with |- (if ?d then _ else _) ≠ _ → _ => destruct d end; [done|].
  apply IH. lia.
Qed.

(** In every state, whatever the loop returns has distinct names, each a
    registered node with its handle. *)
Lemma collect_sound s (count : Z) (fuel i : nat) found used out :
  used = list_to_set found.*1 → NoDup found.*1 →
  Forall (λ nc, nodes s !! nc.1 = Some nc.2) found →
  collect fuel s count i found used = Ok out →
  NoDup out.*1 ∧ Forall (λ nc, nodes s !! nc.1 = Some nc.2) out.
Proof.
  revert i found used. induction fuel as [|fuel IH]; intros i found used Hused Hnd Hreg;
    cbn [collect]; [done|].
  case_decide; [|by intros [= <-]].
  destruct (ring s !! _) as [p|]; [|done].
  destruct (hash2node s !! p) as [n|]; [|done].
  destruct (nodes s !! n) as [c|] eqn:Hc; cbn [fst snd].
  2: { case_decide; [by intros [= <-]|]. by apply IH. }
  destruct (decide (n ∉ used)) as [Hfresh|Hold]; cbn [fst snd].
  2: { case_decide; [by intros [= <-]|]. by apply IH. }
  assert (NoDup (found ++ [(n, c)]).*1) as Hnd'.
  { rewrite fmap_app. apply NoDup_app. split; [done|]. split; [|apply NoDup_singleton].
    intros x Hx Hx'. apply list_elem_of_singleton in Hx'. subst x.
    apply Hfresh. rewrite Hused. by apply elem_of_list_to_set. }
  assert (Forall (λ nc, nodes s !! nc.1 = Some nc.2) (found ++ [(n, c)])) as Hreg'.
  { apply Forall_app. split; [done|]. by apply Forall_singleton. }
  case_decide; [by intros [= <-]|].
  apply IH; [|done..].
  rewrite fmap_app, list_to_set_app_L, Hused. simpl. set_solver.
Qed.

(** The loop never collects more than [count] nodes. *)
Lemma collect_length s (count : Z) (fuel i : nat) found used out :
  (Z.of_nat (length found) ≤ count)%Z →
  collect fuel s count i found used = Ok out →
  (Z.of_nat (length out) ≤ count)%Z.
Proof.
  revert i found used. induction fuel as [|fuel IH]; intros i found used Hle;
    cbn [collect]; [done|].
  case_decide as Hcond; [|by intros [= <-]]. destruct Hcond as [Hlt _].
  destruct (ring s !! _) as [p|]; [|done].
  destruct (hash2node s !! p) as [n|]; [|done].
  destruct (nodes s !! n) as [c|]; [destruct (decide (n ∉ used))|]; cbn [fst snd];
    (case_decide; [intros [= <-]|apply IH]); rewrite ?length_app; simpl; lia.
Qed.

(** Distinct names of registered nodes are no more than the registered
    nodes. *)
Lemma registered_names_length s (out : list (string * Client)) :
  NoDup out.*1 → Forall (λ nc, nodes s !! nc.1 = Some nc.2) out →
  length out ≤ size (nodes s).
Proof.
  intros Hnd Hreg. rewrite <-(length_fmap fst out), <-(size_list_to_set (C:=gset string)) by done.
  rewrite <-size_dom. apply subseteq_size. intros n Hn%elem_of_list_to_set.
  apply list_elem_of_fmap in Hn as ([n' c] & -> & Hin).
  rewrite Forall_forall in Hreg. apply elem_of_dom. exists c. by apply (Hreg (n', c)).
Qed.

Lemma nodes_covered_empty_ring s :
  nodes_covered s → ring s = [] → nodes s = ∅.
Proof.
  intros Hcov Hnil. apply map_empty. intros n.
  destruct (nodes s !! n) as [c|] eqn:Hc; [|done].
  specialize (Hcov n c Hc). simpl in Hcov. rewrite Hnil in Hcov.
  by apply Exists_nil in Hcov.
Qed.

Lemma points_owned_nonempty s :
  points_owned s → ring s ≠ [] → nodes s ≠ ∅.
Proof.
  unfold points_owned. destruct (ring s) as [|p l]; [done|].
  intros [[c Hc] _]%Forall_cons _ Hempty.
  destruct (hash2node s !! p) as [n|]; [|done]. simpl in Hc.
  by rewrite Hempty, lookup_empty in Hc.
Qed.

(** On a ring whose points all have an owner the loop reads no missing
    key: it returns or goes on, it does not raise. *)
Lemma collect_no_raise s (count : Z) (x : exn) :
  points_keyed s →
  ∀ (fuel i : nat) found used,
    i ≤ length (ring s) → collect fuel s count i found used ≠ Raise x.
Proof.
  intros Hkeyed. unfold points_keyed in Hkeyed. rewrite Forall_forall in Hkeyed.
  induction fuel as [|fuel IH]; intros i found used Hi; cbn [collect]; [done|].
  case_decide as Hcond; [|done]. destruct Hcond as [_ Hlen].
  destruct (lookup_lt_is_Some_2 (ring s)
              (if decide (i = length (ring s)) then 0 else i)) as [p Hp].
  { case_decide; lia. }
  rewrite Hp. destruct (Hkeyed p) as [n Hn]; [by eapply list_elem_of_lookup_2|].
  rewrite Hn. cbv zeta.
  match goal with |- (if ?d then _ else _) ≠ _ => destruct d end; [done|].
  apply IH. apply lookup_lt_Some in Hp. lia.
Qed.

End walk_facts.

(** ** What [add_node] and [remove_node] do to the three containers *)

Section ring_facts.
Context {Client : Type}.
Variable _hash : string → Z.
Implicit Types (s : ConsistentHashRing Client) (m : gmap Z string) (r : list Z).
Implicit Types (ops : list (op Client)).

Lemma add_fold_ring (name : string) (st : gmap Z string * list Z) (ixs : list nat) :
  (foldl (add_point _hash name) st ixs).2 =
  st.2 ++ ((λ i, _hash (point_label name i)) <$> ixs).
Proof.
  revert st. induction ixs as [|i ixs IH]; intros st; simpl.
  - by rewrite app_nil_r.
  - rewrite IH. simpl. by rewrite <-app_assoc.
Qed.

Lemma add_fold_lookup (name : string) (st : gmap Z string * list Z)
    (ixs : list nat) (h : Z) :
  (foldl (add_point _hash name) st ixs).1 !! h =
  if decide (h ∈ (λ i, _hash (point_label name i)) <$> ixs)
  then Some name else st.1 !! h.
Proof.
  revert st. induction ixs as [|i ixs IH]; intros st.
  - by simpl.
  - cbn [foldl]. rewrite IH, fmap_cons. cbn [add_point fst].
    destruct (decide (h = _hash (point_label name i))) as [->|Hne].
    + rewrite lookup_insert_eq, (decide_True (P := _ ∈ _ :: _)) by left.
      by case_decide.
    + rewrite lookup_insert_ne by done.
      apply decide_ext. rewrite elem_of_cons. split; [by right|by intros [?|?]].
Qed.

Lemma ring_add_node s name c :
  nodes s !! name = None →
  ring (add_node _hash s name c) =
  merge_sort Z.le (ring s ++ points _hash (replicas s) name).
Proof. intros Hn. unfold add_node. rewrite Hn. simpl. by rewrite add_fold_ring. Qed.

Lemma hash2node_add_node s name c h :
  nodes s !! name = None →
  hash2node (add_node _hash s name c) !! h =
  if decide (h ∈ points _hash (replicas s) name) then Some name
  else hash2node s !! h.
Proof. intros Hn. unfold add_node. rewrite Hn. simpl. by rewrite add_fold_lookup. Qed.

Lemma nodes_add_node s name c :
  nodes s !! name = None →
  nodes (add_node _hash s name c) = <[name := c]> (nodes s).
Proof. intros Hn. unfold add_node. by rewrite Hn. Qed.

Lemma replicas_add_node s name c :
  replicas (add_node _hash s name c) = replicas s.
Proof. unfold add_node. by destruct (nodes s !! name). Qed.

Lemma add_node_registered s name c :
  is_Some (nodes s !! name) → add_node _hash s name c = s.
Proof. intros [c' Hc]. unfold add_node. by rewrite Hc. Qed.

Lemma elem_of_to_remove m (name : string) (h : Z) :
  h ∈ to_remove m name ↔ m !! h = Some name.
Proof.
  unfold to_remove. rewrite list_elem_of_fmap. split.
  - intros ([h' n] & -> & Hin). apply list_elem_of_filter in Hin as [Hn Hin].
    simpl in *. subst n. by apply elem_of_map_to_list.
  - intros Hm. exists (h, name). split; [done|].
    apply list_elem_of_filter. split; [done|]. by apply elem_of_map_to_list.
Qed.

Lemma NoDup_to_remove m (name : string) : NoDup (to_remove m name).
Proof.
  unfold to_remove. eapply sublist_NoDup; [apply (NoDup_fst_map_to_list m)|].
  apply fmap_sublist, sublist_filter.
Qed.

Lemma remove_fold_lookup (st : gmap Z string * list Z) (hs : list Z) (h : Z) :
  (foldl remove_point st hs).1 !! h =
  if decide (h ∈ hs) then None else st.1 !! h.
Proof.
  revert st. induction hs as [|h' hs IH]; intros st.
  - by simpl.
  - cbn [foldl]. rewrite IH. cbn [remove_point fst].
    destruct (decide (h = h')) as [->|Hne].
    + rewrite lookup_delete_eq, (decide_True (P := _ ∈ _ :: _)) by left.
      by case_decide.
    + rewrite lookup_delete_ne by done.
      apply decide_ext. rewrite elem_of_cons. split; [by right|by intros [?|?]].
Qed.

Lemma StronglySorted_delete (l : list Z) (i : nat) :
  StronglySorted Z.le l → StronglySorted Z.le (delete i l).
Proof.
  intros Hs. destruct (l !! i) as [x|] eqn:Hi.
  - rewrite delete_take_drop. rewrite <-(take_drop_middle l i x Hi) in Hs.
    apply StronglySorted_app in Hs as (H12 & H1 & H2).
    apply StronglySorted_cons in H2 as [_ H2].
    apply StronglySorted_app_2; [|done..].
    intros x1 x2 Hx1 Hx2. apply H12; [done|]. by right.
  - rewrite delete_take_drop. apply lookup_ge_None in Hi.
    rewrite take_ge, drop_ge, app_nil_r by lia. done.
Qed.

Lemma remove_point_sorted (st : gmap Z string * list Z) (h : Z) :
  StronglySorted Z.le st.2 → StronglySorted Z.le (remove_point st h).2.
Proof.
  intros Hs. unfold remove_point. simpl.
  case_decide; [by apply StronglySorted_delete|done].
Qed.

Lemma remove_fold_sorted (st : gmap Z string * list Z) (hs : list Z) :
  StronglySorted Z.le st.2 → StronglySorted Z.le (foldl remove_point st hs).2.
Proof.
  revert st. induction hs as [|h hs IH]; intros st Hs; simpl; [done|].
  by apply IH, remove_point_sorted.
Qed.

(** On a sorted ring the loop body pops exactly one occurrence of [h]. *)
Lemma remove_point_perm (st : gmap Z string * list Z) (h : Z) :
  StronglySorted Z.le st.2 → h ∈ st.2 → st.2 ≡ₚ h :: (remove_point st h).2.
Proof.
  intros Hs Hin. unfold remove_point. simpl.
  pose proof (bisect_left_elem_of st.2 h Hs Hin) as Hi.
  rewrite decide_True.
  - by apply delete_Permutation.
  - split; [by eapply lookup_lt_Some|done].
Qed.

Lemma remove_fold_perm (st : gmap Z string * list Z) (hs : list Z) :
  StronglySorted Z.le st.2 → NoDup hs → (∀ h, h ∈ hs → h ∈ st.2) →
  st.2 ≡ₚ hs ++ (foldl remove_point st hs).2.
Proof.
  revert st. induction hs as [|h hs IH]; intros st Hs Hnd Hsub; simpl; [done|].
  apply NoDup_cons in Hnd as [Hh Hnd].
  pose proof (remove_point_perm st h Hs (Hsub h ltac:(left))) as Hp.
  rewrite Hp at 1. constructor. apply IH; [by apply remove_point_sorted|done|].
  intros h' Hh'. assert (h' ∈ h :: (remove_point st h).2) as Hin.
  { rewrite <-Hp. apply Hsub. by right. }
  apply elem_of_cons in Hin as [->|Hin]; done.
Qed.

Lemma remove_point_absent (st : gmap Z string * list Z) (h : Z) :
  h ∉ st.2 → (remove_point st h).2 = st.2.
Proof.
  intros Hnin. unfold remove_point. simpl. rewrite decide_False; [done|].
  intros [_ Hi]. apply Hnin. by eapply list_elem_of_lookup_2.
Qed.

Lemma remove_point_perm_cases (st : gmap Z string * list Z) (h : Z) :
  StronglySorted Z.le st.2 →
  st.2 ≡ₚ (if decide (h ∈ st.2) then [h] else []) ++ (remove_point st h).2.
Proof.
  intros Hs. case_decide as Hin.
  - by apply remove_point_perm.
  - by rewrite remove_point_absent.
Qed.

(** Two turns of the loop of [remove_node] can be exchanged. *)
Lemma remove_point_comm (st : gmap Z string * list Z) (a b : Z) :
  StronglySorted Z.le st.2 →
  remove_point (remove_point st a) b = remove_point (remove_point st b) a.
Proof.
  intros Hs. destruct (decide (a = b)) as [->|Hab]; [done|].
  pose proof (remove_point_sorted st a Hs) as Hsa.
  pose proof (remove_point_sorted st b Hs) as Hsb.
  pose proof (remove_point_perm_cases st a Hs) as Ha.
  pose proof (remove_point_perm_cases st b Hs) as Hb.
  pose proof (remove_point_perm_cases _ b Hsa) as Hab'.
  pose proof (remove_point_perm_cases _ a Hsb) as Hba'.
  assert (∀ x y, x ≠ y → StronglySorted Z.le st.2 →
            y ∈ (remove_point st x).2 ↔ y ∈ st.2) as Hkeep.
  { intros x y Hxy Hsorted. pose proof (remove_point_perm_cases st x Hsorted) as Hx.
    split.
    - intros Hin. rewrite Hx. apply elem_of_app. by right.
    - intros Hin. rewrite Hx in Hin. apply elem_of_app in Hin as [Hin|Hin]; [|done].
      case_decide.
      + apply list_elem_of_singleton in Hin. congruence.
      + by apply elem_of_nil in Hin. }
  pose proof (Hkeep a b Hab Hs) as Hb_in.
  pose proof (Hkeep b a (not_eq_sym Hab) Hs) as Ha_in.
  rewrite (decide_ext _ _ _ _ Hb_in) in Hab'.
  rewrite (decide_ext _ _ _ _ Ha_in) in Hba'.
  apply (injective_projections _ _).
  - simpl. apply delete_delete.
  - apply (StronglySorted_unique Z.le); [by apply remove_point_sorted..|].
    apply (Permutation_app_inv_l (if decide (b ∈ st.2) then [b] else [])).
    apply (Permutation_app_inv_l (if decide (a ∈ st.2) then [a] else [])).
    rewrite <-Hab', <-Ha.
    rewrite (Permutation_app_swap_app (if decide (a ∈ st.2) then [a] else [])).
    by rewrite <-Hba', <-Hb.
Qed.

(** The loop of [remove_node] does not depend on the order in which the
    points to remove are listed. *)
Lemma remove_fold_order (st : gmap Z string * list Z) (hs hs' : list Z) :
  StronglySorted Z.le st.2 → hs ≡ₚ hs' →
  foldl remove_point st hs = foldl remove_point st hs'.
Proof.
  intros Hs Hp. revert st Hs.
  induction Hp as [|h hs hs' Hp IH|a b hs|hs1 hs2 hs3 Hp1 IH1 Hp2 IH2];
    intros st Hs; simpl.
  - done.
  - by apply IH, remove_point_sorted.
  - by rewrite remove_point_comm.
  - by rewrite IH1, IH2.
Qed.

Lemma hash2node_remove_node s name (h : Z) :
  is_Some (nodes s !! name) →
  hash2node (remove_node s name) !! h =
  if decide (hash2node s !! h = Some name) then None else hash2node s !! h.
Proof.
  intros [c Hc]. unfold remove_node. rewrite Hc. simpl.
  rewrite remove_fold_lookup. simpl. apply decide_ext, elem_of_to_remove.
Qed.

Lemma nodes_remove_node s name :
  nodes (remove_node s name) = delete name (nodes s).
Proof.
  unfold remove_node. destruct (nodes s !! name) eqn:Hn; [done|].
  by rewrite delete_id.
Qed.

Lemma replicas_remove_node s name : replicas (remove_node s name) = replicas s.
Proof. unfold remove_node. by destruct (nodes s !! name). Qed.

Lemma remove_node_absent s name : nodes s !! name = None → remove_node s name = s.
Proof. intros Hn. unfold remove_node. by rewrite Hn. Qed.

(** *** Invariants of every reachable ring *)

Lemma add_node_sorted s name c :
  StronglySorted Z.le (ring s) → StronglySorted Z.le (ring (add_node _hash s name c)).
Proof.
  intros Hs. destruct (nodes s !! name) as [c'|] eqn:Hn.
  - by rewrite add_node_registered.
  - rewrite ring_add_node by done. apply StronglySorted_merge_sort; apply _.
Qed.

Lemma remove_node_sorted s name :
  StronglySorted Z.le (ring s) → StronglySorted Z.le (ring (remove_node s name)).
Proof.
  intros Hs. unfold remove_node. destruct (nodes s !! name); [|done].
  simpl. by apply remove_fold_sorted.
Qed.

Lemma add_node_owners s name c :
  owners_registered s → owners_registered (add_node _hash s name c).
Proof.
  intros Ho. destruct (nodes s !! name) as [c'|] eqn:Hn.
  { by rewrite add_node_registered. }
  intros h n Hh. rewrite hash2node_add_node in Hh by done.
  rewrite nodes_add_node by done.
  destruct (decide (n = name)) as [->|Hne].
  - rewrite lookup_insert_eq. by eexists.
  - rewrite lookup_insert_ne by done. case_decide; simplify_eq. by eapply Ho.
Qed.

Lemma remove_node_owners s name :
  owners_registered s → owners_registered (remove_node s name).
Proof.
  intros Ho. destruct (nodes s !! name) as [c'|] eqn:Hn.
  2: { by rewrite remove_node_absent. }
  intros h n Hh. rewrite hash2node_remove_node in Hh by (by eexists).
  rewrite nodes_remove_node. case_decide as Hd; [done|].
  rewrite lookup_delete_ne by congruence. by eapply Ho.
Qed.

Lemma run_ind (P : ConsistentHashRing Client → Prop) (V : Z) :
  P (new_ring V) →
  (∀ s o, P s → P (apply_op _hash s o)) →
  ∀ ops, P (run _hash V ops).
Proof.
  intros H0 Hstep ops. unfold run. generalize dependent (new_ring (Client:=Client) V).
  induction ops as [|o ops IH]; intros s0 H0; simpl; [done|].
  by apply IH, Hstep.
Qed.

Lemma run_sorted (V : Z) ops : StronglySorted Z.le (ring (run _hash V ops)).
Proof.
  apply run_ind; [constructor|]. intros s [name c|name] Hs; simpl.
  - by apply add_node_sorted.
  - by apply remove_node_sorted.
Qed.

Lemma run_owners (V : Z) ops : owners_registered (run _hash V ops).
Proof.
  apply run_ind.
  - intros h n Hh. simpl in Hh. by rewrite lookup_empty in Hh.
  - intros s [name c|name] Hs; simpl.
    + by apply add_node_owners.
    + by apply remove_node_owners.
Qed.

Lemma run_replicas (V : Z) ops : replicas (run _hash V ops) = V.
Proof.
  apply run_ind; [done|]. intros s [name c|name] Hs; simpl.
  - by rewrite replicas_add_node.
  - by rewrite replicas_remove_node.
Qed.

(** *** The primary *)

Lemma filter_from_index (P : Z → Prop) `{!∀ y, Decision (P y)} (a : list Z) (i : nat) :
  (∀ j y, j < i → a !! j = Some y → ¬ P y) →
  (∀ j y, i ≤ j → a !! j = Some y → P y) →
  filter P a = drop i a.
Proof.
  revert i. induction a as [|x a IH]; intros i Hlo Hhi; [by destruct i|].
  destruct i as [|i].
  - rewrite filter_cons_True by (by apply (Hhi 0)).
    rewrite (IH 0); [done|intros; lia|].
    intros j y _ Hj. apply (Hhi (S j)); [lia|done].
  - rewrite filter_cons_False by (by apply (Hlo 0); [lia|]).
    simpl. apply IH.
    + intros j y Hj Hy. apply (Hlo (S j)); [lia|done].
    + intros j y Hj Hy. apply (Hhi (S j)); [lia|done].
Qed.

(** The index [get_node] reads, after the wrap, holds the ring successor. *)
Lemma successor_bisect (a : list Z) (h : Z) :
  StronglySorted Z.le a →
  a !! (if decide (bisect.bisect a h = length a) then 0 else bisect.bisect a h)
  = ring_successor a h.
Proof.
  intros Hs. unfold bisect.bisect, ring_successor.
  destruct (bisect_right_spec a h Hs) as (Hlen & Hlo & Hhi).
  rewrite (filter_from_index _ a (bisect.bisect_right a h)).
  2: { intros j y Hj Hy. specialize (Hlo j y Hj Hy). lia. }
  2: { done. }
  case_decide as Hi.
  - rewrite Hi, drop_all. by rewrite head_lookup.
  - destruct (drop (bisect.bisect_right a h) a) as [|p l] eqn:Hd.
    + apply (f_equal length) in Hd. rewrite length_drop in Hd. simpl in Hd. lia.
    + rewrite <-(Nat.add_0_r (bisect.bisect_right a h)), <-lookup_drop, Hd. done.
Qed.

Lemma get_node_nonempty s (key : string) :
  ring s ≠ [] →
  get_node _hash s key =
  match ring s !! (if decide (bisect.bisect (ring s) (_hash key) = length (ring s))
                   then 0 else bisect.bisect (ring s) (_hash key)) with
  | None => Raise IndexError
  | Some p =>
    match hash2node s !! p with
    | None => Raise KeyError
    | Some node_name =>
      match nodes s !! node_name with
      | None => Raise KeyError
      | Some client => Ok (Some (node_name, client))
      end
    end
  end.
Proof. intros Hne. unfold get_node. by destruct (ring s). Qed.

Lemma get_nodes_for_key_nonempty (fuel : nat) s (key : string) (count : Z) :
  ring s ≠ [] →
  get_nodes_for_key _hash fuel s key count =
  collect fuel s count (bisect.bisect (ring s) (_hash key)) [] ∅.
Proof. intros Hne. unfold get_nodes_for_key. by destruct (ring s). Qed.

(** C2. On every ring reached by [add_node] and [remove_node] calls,
    [get_node] answers "no node" when the ring has no point; otherwise the
    point it reads is the ring successor of [hash(key)] (the first point
    greater than the hash, the first point of the ring when there is none)
    and the answer is the owner of that point with its handle.  The answer
    is a function of the ring and the key, and the ring is left as it was,
    so repeated calls agree. *)
Theorem get_node_ring_successor (V : Z) ops (key : string) :
  let s := run _hash V ops in
  (ring s = [] → get_node _hash s key = Ok None) ∧
  (ring s ≠ [] →
   ∃ p, ring_successor (ring s) (_hash key) = Some p ∧ p ∈ ring s ∧
        (hash2node s !! p = None → get_node _hash s key = Raise KeyError) ∧
        (∀ n, hash2node s !! p = Some n →
           ∃ c, nodes s !! n = Some c ∧
                get_node _hash s key = Ok (Some (n, c)))) ∧
  (∀ out1 out2, get_node _hash s key = out1 → get_node _hash s key = out2 →
     out1 = out2).
Proof.
  intros s. split; [|split]; [| |by intros out1 out2 <- <-].
  - intros Hnil. unfold get_node. by rewrite Hnil.
  - intros Hne. rewrite get_node_nonempty by done.
    pose proof (successor_bisect (ring s) (_hash key) (run_sorted V ops)) as Hsucc.
    fold s in Hsucc.
    pose proof (bisect_right_le_length (ring s) (_hash key)) as Hle.
    destruct (lookup_lt_is_Some_2 (ring s)
      (if decide (bisect.bisect (ring s) (_hash key) = length (ring s))
       then 0 else bisect.bisect (ring s) (_hash key))) as [p Hp].
    { unfold bisect.bisect in *. case_decide; [|lia].
      destruct (ring s); [done|simpl; lia]. }
    exists p. rewrite Hp. rewrite Hp in Hsucc.
    split; [done|]. split; [by eapply list_elem_of_lookup_2|]. split.
    + by intros ->.
    + intros n Hn. rewrite Hn.
      destruct (run_owners V ops p n Hn) as [c Hc]. fold s in Hc.
      exists c. by rewrite Hc.
Qed.

(** C8. On every non-empty ring reached by [add_node] and [remove_node]
    calls, the replica set of size one is the list that holds the primary
    [get_node] returns, and nothing else; where [get_node] raises (a ring
    point without an owner), the replica-set lookup raises the same
    error. *)
Theorem replica_set_of_one_is_primary (V : Z) ops (key : string) (fuel : nat) :
  let s := run _hash V ops in
  ring s ≠ [] → 2 ≤ fuel →
  match get_node _hash s key with
  | Ok (Some primary) => get_nodes_for_key _hash fuel s key 1 = Ok [primary]
  | Ok None => False
  | Raise e => get_nodes_for_key _hash fuel s key 1 = Raise e
  | OutOfFuel => False
  end.
Proof.
  intros s Hne Hfuel.
  rewrite get_node_nonempty, get_nodes_for_key_nonempty by done.
  destruct fuel as [|[|fuel]]; [lia..|].
  assert (0 < length (ring s)) as Hlen by (destruct (ring s); [done|simpl; lia]).
  cbn [collect]. rewrite (decide_True (P := (_ < _)%Z ∧ _)) by (split; [done|exact Hlen]).
  destruct (ring s !! _) as [p|]; [|done].
  destruct (hash2node s !! p) as [n|] eqn:Hn; [|done].
  destruct (run_owners V ops p n Hn) as [c Hc]. fold s in Hc. rewrite Hc.
  rewrite (decide_True (P := _ ∉ _)) by apply not_elem_of_empty. cbn [fst snd].
  case_decide; [done|].
  rewrite (decide_False (P := (_ < _)%Z ∧ _)); [done|]. simpl. lia.
Qed.

(** *** The replica set *)

Lemma get_nodes_for_key_sound (fuel : nat) s (key : string) (count : Z) out :
  get_nodes_for_key _hash fuel s key count = Ok out →
  NoDup out.*1 ∧ Forall (λ nc, nodes s !! nc.1 = Some nc.2) out.
Proof.
  unfold get_nodes_for_key. destruct (ring s).
  - intros [= <-]. split; constructor.
  - apply collect_sound; [done|constructor|constructor].
Qed.

(** C1, as the code has it.  In every ring state, whatever the
    replica-set lookup returns has distinct node names, all of registered
    nodes, no more of them than there are registered nodes, and no more
    than [count] when [count ≥ 0].  On a ring where every point has a
    registered owner and every registered node owns a point (the state
    after any history without colliding points and with at least one point
    per node), the lookup for [count ≥ 0] ends, and returns exactly
    [min(count, number of registered nodes)] distinct names: each
    registered node once when more replicas are asked for than there are
    nodes. *)
Theorem replica_set_size s (key : string) (count : Z) (fuel : nat) :
  (∀ found,
     get_nodes_for_key _hash fuel s key count = Ok found →
     NoDup found.*1 ∧
     Forall (λ nc, nodes s !! nc.1 = Some nc.2) found ∧
     length found ≤ size (nodes s) ∧
     ((0 ≤ count)%Z → (Z.of_nat (length found) ≤ count)%Z)) ∧
  (points_owned s → nodes_covered s → (0 ≤ count)%Z →
   2 * length (ring s) < fuel →
   ∃ found, get_nodes_for_key _hash fuel s key count = Ok found ∧
            NoDup found.*1 ∧
            Z.of_nat (length found) = Z.min count (Z.of_nat (size (nodes s)))).
Proof.
  split.
  { intros found Hfound.
    destruct (get_nodes_for_key_sound _ _ _ _ _ Hfound) as [Hnd Hreg].
    split; [done|]. split; [done|]. split; [by apply registered_names_length|].
    intros Hcount. unfold get_nodes_for_key in Hfound.
    destruct (ring s); [by injection Hfound as <-|].
    by eapply collect_length; [|done]. }
  intros Hpo Hcov Hcount Hfuel.
  destruct (decide (ring s = [])) as [Hnil|Hne].
  { exists []. unfold get_nodes_for_key. rewrite Hnil.
    split; [done|]. split; [constructor|].
    rewrite (nodes_covered_empty_ring s Hcov Hnil), map_size_empty. simpl. lia. }
  rewrite get_nodes_for_key_nonempty by done.
  pose proof (bisect_right_le_length (ring s) (_hash key)) as Hidx.
  fold (bisect.bisect (ring s) (_hash key)) in Hidx.
  set (idx := bisect.bisect (ring s) (_hash key)) in *.
  set (len := length (ring s)) in *.
  assert (walk_inv s count [] ∅) as Hinv0.
  { split; [done|]. split; [constructor|]. split; [set_solver|]. split; [simpl; lia|].
    rewrite size_empty. intros Hsz. symmetry in Hsz. apply map_size_empty_iff in Hsz.
    by apply (points_owned_nonempty s). }
  replace fuel with ((len - idx) + (len + (fuel - (2 * len - idx)))) by lia.
  destruct (collect_lap s count Hpo (len - idx) idx [] ∅ (len + (fuel - (2 * len - idx))))
    as [(out & Hout & Hok)|(found1 & used1 & Hrun1 & Hinv1 & _ & _)]; [lia|done|lia| |].
  { exists out. by destruct Hok. }
  rewrite Hrun1. replace (idx + (len - idx)) with len by lia.
  pose proof (collect_wrap (len + (fuel - (2 * len - idx))) s count found1 used1)
    as Hwrap.
  fold len in Hwrap. rewrite Hwrap. clear Hwrap.
  destruct (collect_lap s count Hpo len 0 found1 used1 (fuel - (2 * len - idx)))
    as [(out & Hout & Hok)|(found2 & used2 & _ & Hinv2 & _ & Hseen)]; [lia|done|lia| |].
  { exists out. by destruct Hok. }
  exfalso. destruct Hinv2 as (_ & _ & Hsub & _ & Hsz). apply Hsz.
  rewrite <-size_dom. f_equal. apply set_eq. intros n. split; [apply Hsub|].
  intros [c Hc]%elem_of_dom. specialize (Hcov n c Hc). simpl in Hcov.
  apply Exists_exists in Hcov as (p & Hp & Hn).
  apply list_elem_of_lookup in Hp as [j Hj].
  eapply (Hseen j p n); [|done..]. apply lookup_lt_Some in Hj. unfold len. lia.
Qed.

(** *** Histories of [add_node] calls only *)

Lemma add_node_keyed s name c :
  points_keyed s → points_keyed (add_node _hash s name c).
Proof.
  intros Hk. destruct (nodes s !! name) as [c'|] eqn:Hn.
  { rewrite add_node_registered; [done|by eexists]. }
  unfold points_keyed in *. rewrite Forall_forall in Hk. apply Forall_forall.
  intros p Hp. rewrite hash2node_add_node by done.
  case_decide; [by eexists|]. apply Hk.
  rewrite ring_add_node in Hp by done.
  rewrite merge_sort_Permutation in Hp. apply elem_of_app in Hp as [?|?]; done.
Qed.

Lemma foldl_add_only_keyed ops s :
  add_only ops → points_keyed s → points_keyed (foldl (apply_op _hash) s ops).
Proof.
  intros Hadd. revert s.
  induction Hadd as [|o ops Ho Hadd IH]; intros s Hk; simpl; [done|].
  apply IH. destruct o as [name c|name]; [|done]. by apply add_node_keyed.
Qed.

Lemma run_add_only_keyed (V : Z) ops :
  add_only ops → points_keyed (run _hash V ops).
Proof. intros Hadd. apply foldl_add_only_keyed; [done|]. constructor. Qed.

Lemma get_nodes_for_key_no_raise (fuel : nat) s (key : string) (count : Z) (x : exn) :
  points_keyed s → get_nodes_for_key _hash fuel s key count ≠ Raise x.
Proof.
  intros Hk. unfold get_nodes_for_key. destruct (ring s) eqn:Hr; [done|].
  rewrite <-Hr. apply collect_no_raise; [done|]. apply bisect_right_le_length.
Qed.

(** *** Histories without colliding points *)

Lemma ring_remove_node s name :
  is_Some (nodes s !! name) →
  ring (remove_node s name) =
  (foldl remove_point (hash2node s, ring s) (to_remove (hash2node s) name)).2.
Proof. intros [c Hc]. unfold remove_node. by rewrite Hc. Qed.

Lemma ring_add_node_perm s name c :
  nodes s !! name = None →
  ring (add_node _hash s name c) ≡ₚ ring s ++ points _hash (replicas s) name.
Proof. intros Hn. rewrite ring_add_node by done. apply merge_sort_Permutation. Qed.

Lemma points_nonempty (V : Z) (name : string) :
  (1 ≤ V)%Z → ∃ p, p ∈ points _hash V name.
Proof.
  intros HV. unfold points. destruct (Z.to_nat V) as [|n] eqn:E; [lia|].
  simpl. eexists. by left.
Qed.

Lemma length_points (V : Z) (name : string) :
  length (points _hash V name) = Z.to_nat V.
Proof. unfold points. by rewrite length_fmap, length_seq. Qed.

Lemma collision_free_inv_new (V : Z) :
  collision_free_inv (new_ring (Client:=Client) V).
Proof.
  split; [constructor|]. split.
  - intros p. simpl. rewrite lookup_empty. split; [by intros ?%elem_of_nil|by intros [? ?]].
  - intros _ n c Hn. simpl in Hn. by rewrite lookup_empty in Hn.
Qed.

Lemma collision_free_inv_add s name c :
  collision_free_inv s →
  nodes s !! name = None →
  NoDup (points _hash (replicas s) name) →
  Forall (λ p, p ∉ ring s) (points _hash (replicas s) name) →
  collision_free_inv (add_node _hash s name c).
Proof.
  intros (Hnd & Hdom & Hcov) Hn Hpts Hdisj. rewrite Forall_forall in Hdisj.
  pose proof (ring_add_node_perm s name c Hn) as Hperm.
  split; [|split].
  - rewrite Hperm. apply NoDup_app. split; [done|]. split; [|done].
    intros x Hx Hx'. by apply (Hdisj x).
  - intros p. rewrite Hperm, elem_of_app, hash2node_add_node by done.
    case_decide as Hp.
    + split; [by eexists|by right].
    + rewrite <-Hdom. split; [by intros [?|?]|by left].
  - rewrite replicas_add_node. intros HV n c' Hc'.
    rewrite nodes_add_node in Hc' by done. apply Exists_exists.
    destruct (decide (n = name)) as [->|Hne].
    + destruct (points_nonempty (replicas s) name HV) as [p Hp].
      exists p. split.
      * rewrite Hperm, elem_of_app. by right.
      * rewrite hash2node_add_node by done. by rewrite decide_True.
    + rewrite lookup_insert_ne in Hc' by done.
      specialize (Hcov HV n c' Hc'). simpl in Hcov.
      apply Exists_exists in Hcov as (p & Hp & Hown).
      exists p. split.
      * rewrite Hperm, elem_of_app. by left.
      * rewrite hash2node_add_node by done. rewrite decide_False; [done|].
        intros Hp'. by apply (Hdisj p).
Qed.

Lemma collision_free_inv_remove s name :
  StronglySorted Z.le (ring s) →
  collision_free_inv s →
  collision_free_inv (remove_node s name).
Proof.
  intros Hs (Hnd & Hdom & Hcov).
  destruct (nodes s !! name) as [c|] eqn:Hn.
  2: { by rewrite remove_node_absent. }
  assert (is_Some (nodes s !! name)) as Hreg by (by eexists).
  pose proof (remove_fold_perm (hash2node s, ring s) (to_remove (hash2node s) name)
                Hs (NoDup_to_remove _ _)) as Hperm.
  rewrite <-ring_remove_node in Hperm by done. simpl in Hperm.
  assert (ring s ≡ₚ to_remove (hash2node s) name ++ ring (remove_node s name)) as Hp.
  { apply Hperm. intros h Hh%elem_of_to_remove. apply Hdom. by eexists. }
  clear Hperm. rewrite Hp in Hnd. apply NoDup_app in Hnd as (_ & Hdisj & Hnd).
  split; [done|]. split.
  - intros p. rewrite hash2node_remove_node by done. split.
    + intros Hin. rewrite decide_False.
      * apply Hdom. rewrite Hp, elem_of_app. by right.
      * intros Hown%elem_of_to_remove. by apply (Hdisj p).
    + case_decide as Hown; [by intros [? ?]|].
      intros Hin%Hdom. rewrite Hp, elem_of_app in Hin.
      destruct Hin as [Hin%elem_of_to_remove|Hin]; done.
  - rewrite replicas_remove_node. intros HV n c' Hc'.
    rewrite nodes_remove_node in Hc'.
    apply lookup_delete_Some in Hc' as [Hne Hc'].
    specialize (Hcov HV n c' Hc'). simpl in Hcov.
    apply Exists_exists in Hcov as (p & Hin & Hown).
    apply Exists_exists. exists p.
    assert (hash2node s !! p ≠ Some name) as Hnot by congruence.
    split.
    + rewrite Hp, elem_of_app in Hin.
      destruct Hin as [Hin%elem_of_to_remove|Hin]; done.
    + rewrite hash2node_remove_node by done. by rewrite decide_False.
Qed.

Lemma collision_free_inv_foldl ops s :
  StronglySorted Z.le (ring s) →
  collision_free_inv s →
  collision_free _hash s ops = true →
  collision_free_inv (foldl (apply_op _hash) s ops).
Proof.
  revert s. induction ops as [|o ops IH]; intros s Hs Hinv Hfree; simpl; [done|].
  simpl in Hfree. apply andb_true_iff in Hfree as [Ho Hfree].
  apply IH; [| |done].
  - destruct o; simpl; [by apply add_node_sorted|by apply remove_node_sorted].
  - destruct o as [name c|name]; simpl.
    + apply orb_true_iff in Ho as [Ho|Ho].
      * apply bool_decide_eq_true in Ho. by rewrite add_node_registered.
      * apply bool_decide_eq_true in Ho as [Hnd Hdisj].
        destruct (nodes s !! name) as [c'|] eqn:Hn.
        { rewrite add_node_registered; [done|by eexists]. }
        by apply collision_free_inv_add.
    + by apply collision_free_inv_remove.
Qed.

Lemma collision_free_inv_run (V : Z) ops :
  collision_free _hash (new_ring V) ops = true →
  collision_free_inv (run _hash V ops).
Proof.
  intros Hfree. apply collision_free_inv_foldl; [constructor| |done].
  apply collision_free_inv_new.
Qed.

(** After a history without colliding points, with at least one point per
    node, the ring is in the state the replica-set theorem asks for. *)
Lemma collision_free_consistent (V : Z) ops :
  collision_free _hash (new_ring V) ops = true →
  points_owned (run _hash V ops) ∧
  ((1 ≤ V)%Z → nodes_covered (run _hash V ops)).
Proof.
  intros Hfree. destruct (collision_free_inv_run V ops Hfree) as (Hnd & Hdom & Hcov).
  split.
  - apply Forall_forall. intros p Hp. apply Hdom in Hp as [n Hn].
    rewrite Hn. simpl. by eapply run_owners.
  - intros HV. apply Hcov. by rewrite run_replicas.
Qed.

Lemma sorted_NoDup_lt (l : list Z) :
  StronglySorted Z.le l → NoDup l → Sorted Z.lt l.
Proof.
  induction 1 as [|x l Hs IH Hall]; intros Hnd; [constructor|].
  apply NoDup_cons in Hnd as [Hx Hnd]. constructor; [by apply IH|].
  destruct l as [|y l]; constructor.
  apply Forall_cons in Hall as [Hxy _].
  assert (x ≠ y) by (intros ->; apply Hx; by left). lia.
Qed.

(** C7, as the code has it.  After every history of [add_node] and
    [remove_node] calls the ring is sorted in ascending order; it is
    strictly sorted, each hash value once, when no inserted point met a
    point already on the ring or another point of its own node; and a
    point inserted for a node belongs to that node afterwards, whoever
    owned the hash value before (last write wins). *)
Theorem ring_sorted_after_history (V : Z) ops :
  let s := run _hash V ops in
  Sorted Z.le (ring s) ∧
  (collision_free _hash (new_ring V) ops = true → Sorted Z.lt (ring s)) ∧
  (∀ name c p, nodes s !! name = None → p ∈ points _hash V name →
     hash2node (add_node _hash s name c) !! p = Some name).
Proof.
  intros s. split; [|split].
  - apply StronglySorted_Sorted, run_sorted.
  - intros Hfree. apply sorted_NoDup_lt; [apply run_sorted|].
    by destruct (collision_free_inv_run V ops Hfree).
  - intros name c p Hn Hp. rewrite hash2node_add_node by done.
    unfold s. rewrite run_replicas. by rewrite decide_True.
Qed.

(** The ring a client builds at construction is a reachable ring. *)
Lemma init_ring_reachable (connect : string → Z → Z → Client)
    (addrs : list (string * Z)) (V R timeout : Z) :
  DMC.hash_ring (DMC.init _hash connect addrs V R timeout) =
  run _hash V ((λ hp, AddNode (hp.1 +:+ ":" +:+ pretty hp.2)
                        (connect hp.1 hp.2 timeout)) <$> addrs).
Proof.
  unfold DMC.init, run. simpl. generalize (new_ring (Client:=Client) V).
  induction addrs as [|hp addrs IH]; intros s0; simpl; [done|]. apply IH.
Qed.

(** *** Adding a node and removing it again *)




End ring_facts.

(** ** The replicating client *)

Section set_facts.
Context {Client World : Type}.
Variable client_set : Client → string → PyVal → Z → World → reply unit * World.
Implicit Types (c : DMC.t Client) (e : DMC.Env World).
Implicit Types (nodes : list (string * Client)) (oks : list bool).

(** One turn of the loop of [set]: one call, logged with its outcome. *)
Lemma set_step_spec (key : string) (value : PyVal) (ttl : Z)
    (st : DMC.set_state World) (n : string) (cl : Client) :
  let st1 := DMC.set_step client_set key value ttl st (n, cl) in
  ∃ ok : bool,
    DMC.trace (DMC.set_env st1) = DMC.trace (DMC.set_env st) ++ [SetCall n ok] ∧
    DMC.stored_nodes st1 = DMC.stored_nodes st ++ (if ok then [n] else []) ∧
    DMC.set_success st1 = DMC.set_success st || ok ∧
    DMC.set_results st1 = <[n := ok]> (DMC.set_results st).
Proof.
  unfold DMC.set_step. simpl.
  destruct (client_set cl key value ttl (DMC.world (DMC.set_env st))) as [[[]|] w].
  - exists true. simpl. by rewrite orb_true_r.
  - exists false. simpl. by rewrite app_nil_r, orb_false_r.
Qed.

(** The whole loop of [set]: a call on every node, in order; the names
    kept in [stored_nodes] are those whose write went through. *)
Lemma set_fold (key : string) (value : PyVal) (ttl : Z) nodes
    (st : DMC.set_state World) :
  let st' := foldl (DMC.set_step client_set key value ttl) st nodes in
  ∃ oks,
    length oks = length nodes ∧
    DMC.trace (DMC.set_env st') =
      DMC.trace (DMC.set_env st) ++ zip_with SetCall nodes.*1 oks ∧
    DMC.stored_nodes st' =
      DMC.stored_nodes st ++ (filter (λ no, no.2 = true) (zip nodes.*1 oks)).*1 ∧
    (DMC.set_success st' = true ↔ DMC.set_success st = true ∨ true ∈ oks) ∧
    (∀ n, n ∉ nodes.*1 → DMC.set_results st' !! n = DMC.set_results st !! n) ∧
    (NoDup nodes.*1 → ∀ j n ok, nodes.*1 !! j = Some n → oks !! j = Some ok →
       DMC.set_results st' !! n = Some ok).
Proof.
  revert st. induction nodes as [|[n cl] nodes IH]; intros st; cbn [foldl].
  { exists []. simpl. rewrite !app_nil_r.
    split; [done|]. split; [done|]. split; [done|]. split; [|done].
    split; [by left|]. by intros [?|?%elem_of_nil]. }
  destruct (set_step_spec key value ttl st n cl) as (ok & Htr1 & Hst1 & Hsucc1 & Hres1).
  destruct (IH (DMC.set_step client_set key value ttl st (n, cl)))
    as (oks & Hlen & Htr & Hst & Hsucc & Hother & Hres).
  exists (ok :: oks). cbn [fmap list_fmap fst zip_with length].
  rewrite Htr, Htr1, Hst, Hst1, <-!app_assoc.
  split; [by rewrite Hlen|]. split; [done|]. split; [|split; [|split]].
  - f_equal. destruct ok.
    + by rewrite filter_cons_True by done.
    + by rewrite filter_cons_False by done.
  - rewrite Hsucc, Hsucc1, elem_of_cons, orb_true_iff. naive_solver.
  - intros n' Hn'. apply not_elem_of_cons in Hn' as [Hne Hn'].
    rewrite Hother, Hres1 by done. by rewrite lookup_insert_ne.
  - intros [Hn Hnd]%NoDup_cons [|j] n' ok' Hj Hok; simplify_eq/=.
    + rewrite Hother, Hres1 by done. by rewrite lookup_insert_eq.
    + by eapply Hres.
Qed.

Section set_theorems.
Variable _hash : string → Z.

(** What [set] really leaves in the bookkeeping: the nodes whose write
    went through, not the nodes on which a write was attempted. *)
Lemma set_key_map (fuel : nat) c (key : string) (value : PyVal) (ttl : Z) e nodes :
  get_nodes_for_key _hash fuel (DMC.hash_ring c) key (DMC.replication_factor c)
    = Ok nodes →
  ∃ oks success results c' e',
    DMC.set _hash client_set fuel c key value ttl e = Ok (success, results, c', e') ∧
    length oks = length nodes ∧
    DMC.trace e' = DMC.trace e ++ zip_with SetCall nodes.*1 oks ∧
    DMC.key_map c' !! key =
      Some (filter (λ no, no.2 = true) (zip nodes.*1 oks)).*1 ∧
    (∀ k, k ≠ key → DMC.key_map c' !! k = DMC.key_map c !! k).
Proof.
  intros Hnodes. unfold DMC.set. rewrite Hnodes.
  set (st0 := DMC.mkSetState ∅ false [] e).
  destruct (set_fold key value ttl nodes st0) as (oks & Hlen & Htr & Hst & _).
  eexists oks, _, _, _, _. split; [done|]. split; [done|]. split; [done|].
  simpl. split.
  - by rewrite lookup_insert_eq, Hst.
  - intros k Hk. by rewrite lookup_insert_ne.
Qed.

End set_theorems.
End set_facts.

Section delete_facts.
Context {Client World : Type}.
Variable client_delete : Client → string → World → reply unit * World.
Implicit Types (c : DMC.t Client) (e : DMC.Env World).
Implicit Types (nodes : list (string * Client)) (oks : list bool).

(** One turn of the loop of [delete]. *)
Lemma delete_step_spec (key : string) (st : gmap string bool * DMC.Env World)
    (n : string) (cl : Client) :
  let st1 := DMC.delete_step client_delete key st (n, cl) in
  ∃ ok : bool,
    DMC.trace st1.2 = DMC.trace st.2 ++ [DeleteCall n ok] ∧
    st1.1 = <[n := ok]> st.1.
Proof.
  unfold DMC.delete_step. simpl.
  destruct (client_delete cl key (DMC.world st.2)) as [[[]|] w].
  - by exists true.
  - by exists false.
Qed.

Lemma delete_fold (key : string) nodes (st : gmap string bool * DMC.Env World) :
  let st' := foldl (DMC.delete_step client_delete key) st nodes in
  ∃ oks,
    length oks = length nodes ∧
    DMC.trace st'.2 = DMC.trace st.2 ++ zip_with DeleteCall nodes.*1 oks ∧
    (∀ n, n ∉ nodes.*1 → st'.1 !! n = st.1 !! n) ∧
    (NoDup nodes.*1 → ∀ j n ok, nodes.*1 !! j = Some n → oks !! j = Some ok →
       st'.1 !! n = Some ok).
Proof.
  revert st. induction nodes as [|[n cl] nodes IH]; intros st; cbn [foldl].
  { exists []. simpl. by rewrite app_nil_r. }
  destruct (delete_step_spec key st n cl) as (ok & Htr1 & Hres1).
  destruct (IH (DMC.delete_step client_delete key st (n, cl)))
    as (oks & Hlen & Htr & Hother & Hres).
  exists (ok :: oks). cbn [fmap list_fmap fst zip_with length].
  rewrite Htr, Htr1, <-!app_assoc.
  split; [by rewrite Hlen|]. split; [done|]. split.
  - intros n' Hn'. apply not_elem_of_cons in Hn' as [Hne Hn'].
    rewrite Hother, Hres1 by done. by rewrite lookup_insert_ne.
  - intros [Hn Hnd]%NoDup_cons [|j] n' ok' Hj Hok; simplify_eq/=.
    + rewrite Hother, Hres1 by done. by rewrite lookup_insert_eq.
    + by eapply Hres.
Qed.

End delete_facts.

(** ** The theorems at work on concrete rings and fleets *)

(** C1 fails as stated: with zero points per node a registered node never
    reaches the ring, and the lookup returns the empty list although one
    node is registered. *)
Lemma replica_set_size_counterexample :
  let s := run byte_sum 0 [AddNode node_a 11211%Z] in
  ¬ ∃ fuel found,
      get_nodes_for_key byte_sum fuel s "k" 1 = Ok found ∧
      NoDup found.*1 ∧
      Z.of_nat (length found) = Z.min 1 (Z.of_nat (size (nodes s))).
Proof.
  intros s (fuel & found & Hfound & _ & Hlen).
  assert (ring s = []) as Hring by (by vm_compute).
  unfold get_nodes_for_key in Hfound. rewrite Hring in Hfound.
  injection Hfound as <-.
  assert (size (nodes s) = 1) as Hsize by (by vm_compute).
  rewrite Hsize in Hlen. simpl in Hlen. lia.
Qed.

Lemma replica_set_size_witness :
  ∃ found, get_nodes_for_key byte_sum 5 (run byte_sum 1 two_nodes) "k" 2 = Ok found ∧
           NoDup found.*1 ∧
           Z.of_nat (length found) =
           Z.min 2 (Z.of_nat (size (nodes (run byte_sum 1 two_nodes)))).
Proof.
  apply (proj2 (replica_set_size byte_sum (run byte_sum 1 two_nodes) "k" 2 5)).
  - compute_done.
  - compute_done.
  - lia.
  - vm_compute. lia.
Defined.

Lemma get_node_ring_successor_witness :
  let s := run byte_sum 1 two_nodes in
  ∃ p, ring_successor (ring s) (byte_sum "k") = Some p ∧ p ∈ ring s ∧
       (hash2node s !! p = None → get_node byte_sum s "k" = Raise KeyError) ∧
       (∀ n, hash2node s !! p = Some n →
          ∃ c, nodes s !! n = Some c ∧ get_node byte_sum s "k" = Ok (Some (n, c))).
Proof.
  apply (proj1 (proj2 (get_node_ring_successor byte_sum 1 two_nodes "k"))).
  vm_compute. discriminate.
Defined.

Lemma replica_set_of_one_is_primary_witness :
  get_nodes_for_key byte_sum 2 (run byte_sum 1 two_nodes) "k" 1
  = Ok [(node_a, 11211%Z)].
Proof.
  apply (replica_set_of_one_is_primary byte_sum 1 two_nodes "k" 2).
  - vm_compute. discriminate.
  - lia.
Defined.

(** What the premise on the points of the new node is for.  The byte-sum
    digest, unlike the program's MD5, gives the labels of [node_a] and
    [node_c] the same value: the new node takes the point over in
    [hash2node], removing the node then deletes the entry, and the earlier
    owner has lost its point. *)
Lemma colliding_label_takes_point_over :
  let s := run byte_sum 1 [AddNode node_a 11211%Z] in
  nodes s !! node_c = None ∧
  hash2node s !! 847%Z = Some node_a ∧
  hash2node (remove_node (add_node byte_sum s node_c 11121%Z) node_c) !! 847%Z = None ∧
  remove_node (add_node byte_sum s node_c 11121%Z) node_c ≠ s.
Proof.
  intros s. split; [by vm_compute|]. split; [by vm_compute|]. split; [by vm_compute|].
  intros Heq. apply (f_equal (λ t, hash2node t !! 847%Z)) in Heq.
  vm_compute in Heq. discriminate.
Qed.


(** C7 fails as stated: [add_node] appends the hash value of a point to
    the ring whether or not the ring holds that value already, so two
    nodes with a common point leave the value twice on the ring.  Under
    the byte-sum digest the labels of [node_a] and [node_c] collide. *)
Lemma ring_sorted_after_history_counterexample :
  let s := run byte_sum 1 colliding_nodes in
  ring s = [847%Z; 847%Z] ∧ ¬ Sorted Z.lt (ring s) ∧ ¬ NoDup (ring s).
Proof.
  intros s. assert (ring s = [847%Z; 847%Z]) as Hring by (by vm_compute).
  split; [done|]. rewrite Hring. split.
  - intros Hs. inversion Hs as [|? ? _ Hhd]. inversion Hhd. lia.
  - intros [Hnd _]%NoDup_cons. apply Hnd. by left.
Qed.

Lemma ring_sorted_after_history_witness :
  Sorted Z.lt (ring (run byte_sum 1 two_nodes)) ∧
  hash2node (add_node byte_sum (run byte_sum 1 two_nodes) node_c 11121%Z) !! 847%Z
  = Some node_c.
Proof.
  destruct (ring_sorted_after_history byte_sum 1 two_nodes) as (_ & Hstrict & Hlast).
  split.
  - apply Hstrict. vm_compute. reflexivity.
  - apply Hlast.
    + vm_compute. reflexivity.
    + compute_done.
Defined.

(** What follows a collision, in the loop of the replica-set lookup: when
    every point of the ring belongs to one node and another node is
    registered, a lookup for two replicas never ends. *)
Lemma collect_spins {Client : Type} (s : ConsistentHashRing Client)
    (n : string) (c : Client) (count : Z) :
  Forall (λ p, hash2node s !! p = Some n) (ring s) →
  nodes s !! n = Some c → size (nodes s) ≠ 1 →
  (1 < count)%Z → ring s ≠ [] →
  ∀ fuel i, i ≤ length (ring s) → collect fuel s count i [(n, c)] {[n]} = OutOfFuel.
Proof.
  intros Hall Hn Hsize Hcount Hne. rewrite Forall_forall in Hall.
  assert (0 < length (ring s)) as Hlen by (destruct (ring s); [done|simpl; lia]).
  induction fuel as [|fuel IH]; intros i Hi; cbn [collect]; [done|].
  rewrite (decide_True (P := (_ < _)%Z ∧ _)) by (split; [simpl; lia|done]).
  destruct (lookup_lt_is_Some_2 (ring s)
              (if decide (i = length (ring s)) then 0 else i)) as [p Hp].
  { case_decide; lia. }
  rewrite Hp, (Hall p) by (by eapply list_elem_of_lookup_2). rewrite Hn.
  rewrite (decide_False (P := _ ∉ _)) by set_solver. cbn [fst snd].
  rewrite size_singleton. rewrite decide_False by done.
  apply IH. apply lookup_lt_Some in Hp. lia.
Qed.

Lemma lookup_after_collision_never_ends (fuel : nat) :
  get_nodes_for_key byte_sum fuel (run byte_sum 1 colliding_nodes) "k" 2 = OutOfFuel.
Proof.
  destruct fuel as [|fuel]; [done|].
  change (get_nodes_for_key byte_sum (S fuel) (run byte_sum 1 colliding_nodes) "k" 2)
    with (collect fuel (run byte_sum 1 colliding_nodes) 2 1
            [(node_c, 11121%Z)] {[node_c]}).
  apply collect_spins.
  - compute_done.
  - by vm_compute.
  - by vm_compute.
  - lia.
  - by vm_compute.
  - vm_compute. lia.
Qed.

(** After the collision, removing the later node leaves a point without
    owner on the ring, and the primary lookup raises. *)
Lemma get_node_after_collision_raises :
  get_node byte_sum (run byte_sum 1 (colliding_nodes ++ [RemoveNode node_c])) "k"
  = Raise KeyError.
Proof. by vm_compute. Qed.

(** C3 on the code: one node, and the node is down.  [set] has attempted
    the write on the node (the call is in the trace, the outcome map says
    it failed), yet the bookkeeping entry of the key is the empty list:
    [stored_nodes] only grows on the branch where the write went through. *)
Theorem set_bookkeeping_omits_failed_nodes :
  ∃ c' e',
    get_nodes_for_key byte_sum 3 (DMC.hash_ring single_client) "k"
      (DMC.replication_factor single_client) = Ok [(node_a, 11211%Z)] ∧
    DMC.set byte_sum (sim_set [11211%Z]) 3 single_client "k" (PyStr "v") 0 empty_fleet
      = Ok (false, {[node_a := false]}, c', e') ∧
    DMC.trace e' = [SetCall node_a false] ∧
    DMC.key_map c' !! "k" = Some [].
Proof. eexists _, _. split; [by vm_compute|]. split; [by vm_compute|]. by split. Qed.

(** With two replicas, one of them down, the entry lists the node that
    took the write and leaves out the node that was tried and failed. *)
Lemma set_bookkeeping_partial :
  ∃ results c' e',
    DMC.set byte_sum (sim_set [11212%Z]) 5 (demo_client 2) "k" (PyStr "v") 0 empty_fleet
      = Ok (true, results, c', e') ∧
    DMC.trace e' = [SetCall node_a true; SetCall node_b false] ∧
    DMC.key_map c' !! "k" = Some [node_a].
Proof. eexists _, _, _. split; [by vm_compute|]. by split. Qed.

(** Bytes that do not decode come back as they are. *)
Lemma get_keeps_undecodable_bytes :
  let raw := String (Ascii.ascii_of_nat 255) EmptyString in
  ∃ e', DMC.get byte_sum (sim_get []) ascii_decode 5 (demo_client 1) "k"
          (DMC.mkEnv [(11211%Z, "k", PyBytes raw)] [])
        = Ok (Some (PyBytes raw), e').
Proof. eexists. by vm_compute. Qed.

(** * Further properties of the ring *)

(** ** The ring successor without positions *)

Section successor_facts.

Lemma filter_head_least (P : Z → Prop) `{!∀ y, Decision (P y)} (l : list Z) (p : Z)
    (t : list Z) :
  StronglySorted Z.le l → filter P l = p :: t →
  p ∈ l ∧ P p ∧ ∀ q, q ∈ l → P q → (p ≤ q)%Z.
Proof.
  induction 1 as [|x l Hs IH Hall]; intros Hf; [done|].
  rewrite Forall_forall in Hall.
  destruct (decide (P x)) as [Hx|Hx].
  - rewrite filter_cons_True in Hf by done. injection Hf as <- _.
    split; [by left|]. split; [done|].
    intros q [->|Hq]%elem_of_cons _; [lia|by apply Hall].
  - rewrite filter_cons_False in Hf by done.
    destruct (IH Hf) as (Hin & Hp & Hleast).
    split; [by right|]. split; [done|].
    intros q [->|Hq]%elem_of_cons HPq; [done|by apply Hleast].
Qed.

Lemma filter_nil_none (P : Z → Prop) `{!∀ y, Decision (P y)} (l : list Z) :
  filter P l = [] → ∀ q, q ∈ l → ¬ P q.
Proof.
  intros Hf q Hq HP.
  assert (q ∈ filter P l) as Hin by (by apply list_elem_of_filter).
  rewrite Hf in Hin. by apply elem_of_nil in Hin.
Qed.

Lemma ring_successor_is_successor (l : list Z) (h p : Z) :
  StronglySorted Z.le l → ring_successor l h = Some p → is_successor l h p.
Proof.
  intros Hs. unfold ring_successor.
  destruct (filter (λ q, (h < q)%Z) l) as [|p' t] eqn:Hf.
  - intros Hhead. pose proof (filter_nil_none _ l Hf) as Hnone.
    destruct Hs as [|x l Hs Hall]; [done|]. simpl in Hhead. injection Hhead as ->.
    rewrite Forall_forall in Hall.
    split; [by left|]. right. split.
    + intros q Hq. specialize (Hnone q Hq). lia.
    + intros q [->|Hq]%elem_of_cons; [lia|by apply Hall].
  - intros [= ->]. destruct (filter_head_least _ l p t Hs Hf) as (Hin & Hp & Hleast).
    split; [done|]. left. by split.
Qed.

Lemma is_successor_unique (l : list Z) (h p p' : Z) :
  is_successor l h p → is_successor l h p' → p = p'.
Proof.
  intros [Hin [[Hp Hleast]|[Hall Hleast]]] [Hin' [[Hp' Hleast']|[Hall' Hleast']]].
  - specialize (Hleast p' Hin' Hp'). specialize (Hleast' p Hin Hp). lia.
  - specialize (Hall' p Hin). lia.
  - specialize (Hall p' Hin'). lia.
  - specialize (Hleast p' Hin'). specialize (Hleast' p Hin). lia.
Qed.

Lemma ring_successor_is_Some (l : list Z) (h : Z) :
  l ≠ [] → is_Some (ring_successor l h).
Proof.
  intros Hne. unfold ring_successor.
  destruct (filter _ l); [|by eexists]. destruct l; [done|by eexists].
Qed.

Lemma is_successor_ring_successor (l : list Z) (h p : Z) :
  StronglySorted Z.le l → is_successor l h p → ring_successor l h = Some p.
Proof.
  intros Hs Hp. assert (l ≠ []) as Hne.
  { destruct Hp as [Hin _]. intros ->. by apply elem_of_nil in Hin. }
  destruct (ring_successor_is_Some l h Hne) as [p' Hp'].
  rewrite Hp'. f_equal.
  eapply is_successor_unique; [|done]. by apply ring_successor_is_successor.
Qed.

(** The successor among fewer points: a successor that is kept stays the
    successor. *)
Lemma is_successor_subset (l l' : list Z) (h p : Z) :
  (∀ q, q ∈ l' → q ∈ l) → p ∈ l' → is_successor l h p → is_successor l' h p.
Proof.
  intros Hsub Hin [_ [[Hp Hleast]|[Hall Hleast]]]; (split; [done|]).
  - left. split; [done|]. intros q Hq. by apply Hleast, Hsub.
  - right. split; intros q Hq; [by apply Hall, Hsub|by apply Hleast, Hsub].
Qed.

End successor_facts.

Section ring_extras.
Context {Client : Type}.
Variable _hash : string → Z.
Implicit Types (s : ConsistentHashRing Client) (ops : list (op Client)).

(** [get_node] read through the ring successor. *)
Lemma get_node_via_successor s (key : string) :
  StronglySorted Z.le (ring s) →
  get_node _hash s key =
  match ring_successor (ring s) (_hash key) with
  | None => Ok None
  | Some p =>
    match hash2node s !! p with
    | None => Raise KeyError
    | Some n =>
      match nodes s !! n with
      | None => Raise KeyError
      | Some c => Ok (Some (n, c))
      end
    end
  end.
Proof.
  intros Hs. destruct (decide (ring s = [])) as [Hnil|Hne].
  { unfold get_node. by rewrite Hnil. }
  rewrite get_node_nonempty by done. rewrite successor_bisect by done.
  by destruct (ring_successor_is_Some (ring s) (_hash key) Hne) as [p ->].
Qed.

Lemma get_node_registered s (key : string) (n : string) (c : Client) :
  get_node _hash s key = Ok (Some (n, c)) → nodes s !! n = Some c.
Proof.
  unfold get_node. destruct (ring s); [done|].
  destruct (_ !! _) as [p|]; [|done].
  destruct (hash2node s !! p) as [n'|]; [|done].
  destruct (nodes s !! n') as [c'|] eqn:Hc; [|done]. by intros [= <- <-].
Qed.

(** What [remove_node] leaves on the ring: points that were there, and
    every point it was not asked to remove. *)
Lemma remove_fold_elem_of (st : gmap Z string * list Z) (hs : list Z) (x : Z) :
  StronglySorted Z.le st.2 →
  (x ∈ (foldl remove_point st hs).2 → x ∈ st.2) ∧
  (x ∈ st.2 → x ∉ hs → x ∈ (foldl remove_point st hs).2).
Proof.
  revert st. induction hs as [|h hs IH]; intros st Hs; simpl; [done|].
  pose proof (remove_point_perm_cases st h Hs) as Hp.
  destruct (IH (remove_point st h) (remove_point_sorted st h Hs)) as [IH1 IH2].
  split.
  - intros Hx%IH1. rewrite Hp. apply elem_of_app. by right.
  - intros Hx [Hxh Hxhs]%not_elem_of_cons. apply IH2; [|done].
    rewrite Hp in Hx. apply elem_of_app in Hx as [Hx|Hx]; [|done].
    case_decide.
    + apply list_elem_of_singleton in Hx. done.
    + by apply elem_of_nil in Hx.
Qed.

(** X1. Removing a node moves no key that was on another node: on every
    ring reached by [add_node] and [remove_node] calls, a key whose primary
    is a node other than the one removed has the same primary, with the
    same handle, after [remove_node]. *)
Theorem remove_node_keeps_other_primaries (V : Z) ops (name key : string)
    (n : string) (c : Client) :
  let s := run _hash V ops in
  get_node _hash s key = Ok (Some (n, c)) → n ≠ name →
  get_node _hash (remove_node s name) key = Ok (Some (n, c)).
Proof.
  intros s Hget Hne.
  destruct (nodes s !! name) as [c'|] eqn:Hreg.
  2: { by rewrite remove_node_absent. }
  assert (is_Some (nodes s !! name)) as Hreg' by (by eexists).
  pose proof (run_sorted _hash V ops) as Hs. fold s in Hs.
  rewrite get_node_via_successor in Hget by done.
  destruct (ring_successor (ring s) (_hash key)) as [p|] eqn:Hsucc; [|done].
  destruct (hash2node s !! p) as [n'|] eqn:Hown; [|done].
  destruct (nodes s !! n') as [c''|] eqn:Hc; [|done]. injection Hget as -> ->.
  rewrite get_node_via_successor by (by apply remove_node_sorted).
  assert (ring_successor (ring (remove_node s name)) (_hash key) = Some p) as ->.
  { apply is_successor_ring_successor; [by apply remove_node_sorted|].
    rewrite ring_remove_node by done.
    apply ring_successor_is_successor in Hsucc; [|done].
    eapply is_successor_subset; [| |done].
    - intros q Hq. by apply (remove_fold_elem_of (hash2node s, ring s)) in Hq.
    - apply (remove_fold_elem_of (hash2node s, ring s)); [done| |].
      + by destruct Hsucc.
      + intros Hin%elem_of_to_remove. congruence. }
  rewrite hash2node_remove_node by done.
  rewrite decide_False by congruence. rewrite Hown.
  rewrite nodes_remove_node, lookup_delete_ne by done. by rewrite Hc.
Qed.

(** X2. A removed node is out of every lookup at once: whatever the ring,
    after [remove_node(name)] the primary lookup does not return [name] and
    no replica set contains it. *)
Theorem removed_node_is_not_returned s (name key : string) (count : Z) (fuel : nat) :
  (∀ n c, get_node _hash (remove_node s name) key = Ok (Some (n, c)) → n ≠ name) ∧
  (∀ found, get_nodes_for_key _hash fuel (remove_node s name) key count = Ok found →
            name ∉ found.*1).
Proof.
  assert (nodes (remove_node s name) !! name = None) as Hgone.
  { rewrite nodes_remove_node. apply lookup_delete_eq. }
  split.
  - intros n c Hget%get_node_registered ->. congruence.
  - intros found [_ Hreg]%get_nodes_for_key_sound Hin.
    rewrite Forall_forall in Hreg.
    apply list_elem_of_fmap in Hin as ([n c] & -> & Hin).
    specialize (Hreg _ Hin). simpl in *. congruence.
Qed.

(** X3. Adding a node moves keys to the new node only: on every ring
    reached by [add_node] and [remove_node] calls, when a node is added
    whose points are not keys of [hash2node] yet, each key either has the
    new node as primary or keeps the answer it had (the same node and
    handle, no node, or the same error). *)
Theorem add_node_moves_keys_to_new_node_only (V : Z) ops (name key : string)
    (c : Client) :
  let s := run _hash V ops in
  nodes s !! name = None →
  Forall (λ p, hash2node s !! p = None) (points _hash V name) →
  get_node _hash (add_node _hash s name c) key = Ok (Some (name, c)) ∨
  get_node _hash (add_node _hash s name c) key = get_node _hash s key.
Proof.
  intros s Hfresh Hpts. rewrite Forall_forall in Hpts.
  pose proof (run_sorted _hash V ops) as Hs. fold s in Hs.
  pose proof (run_owners _hash V ops) as Ho. fold s in Ho.
  assert (replicas s = V) as HV by apply run_replicas.
  pose proof (ring_add_node_perm _hash s name c Hfresh) as Hperm. rewrite HV in Hperm.
  pose proof (add_node_sorted _hash s name c Hs) as Hs'.
  rewrite !get_node_via_successor by done.
  destruct (ring_successor (ring (add_node _hash s name c)) (_hash key))
    as [p|] eqn:Hsucc.
  - apply ring_successor_is_successor in Hsucc as Hsucc'; [|done].
    assert (p ∈ ring s ++ points _hash V name) as Hin.
    { rewrite <-Hperm. by destruct Hsucc'. }
    rewrite hash2node_add_node, HV by done.
    destruct (decide (p ∈ points _hash V name)) as [Hp|Hp].
    + left. by rewrite nodes_add_node, lookup_insert_eq.
    + right. apply elem_of_app in Hin as [Hin|Hin]; [|done].
      rewrite (is_successor_ring_successor (ring s) (_hash key) p Hs).
      2: { eapply is_successor_subset; [|done|done].
           intros q Hq. rewrite Hperm. apply elem_of_app. by left. }
      destruct (hash2node s !! p) as [n|] eqn:Hn; [|done].
      rewrite nodes_add_node, lookup_insert_ne; [done| |done].
      intros <-. destruct (Ho p name Hn) as [c' Hc']. congruence.
  - right. destruct (decide (ring (add_node _hash s name c) = [])) as [Hnil|Hne].
    2: { destruct (ring_successor_is_Some _ (_hash key) Hne) as [p Hp]. congruence. }
    rewrite Hnil in Hperm. apply Permutation_nil in Hperm.
    apply app_eq_nil in Hperm as [-> _]. done.
Qed.

(** The loop of the replica-set lookup only appends to [found]. *)
Lemma collect_prefix s (count : Z) (fuel i : nat) found used out :
  collect fuel s count i found used = Ok out → found `prefix_of` out.
Proof.
  revert i found used. induction fuel as [|fuel IH]; intros i found used;
    cbn [collect]; [done|].
  case_decide; [|by intros [= <-]].
  destruct (ring s !! _) as [p|]; [|done].
  destruct (hash2node s !! p) as [n|]; [|done].
  destruct (nodes s !! n) as [c|]; [destruct (decide (n ∉ used))|]; cbn [fst snd].
  - case_decide; [intros [= <-]; by apply prefix_app_r|].
    intros Hout%IH. by eapply prefix_app_l.
  - case_decide; [by intros [= <-]|]. apply IH.
  - case_decide; [by intros [= <-]|]. apply IH.
Qed.

(** X4. The primary comes first: on every non-empty ring reached by
    [add_node] and [remove_node] calls, whenever the replica-set lookup for
    [count ≥ 1] returns, [get_node] returns a node for the same key and
    that node, with its handle, is the first entry of the replica set. *)
Theorem replica_set_starts_with_primary (V : Z) ops (key : string) (count : Z)
    (fuel : nat) (found : list (string * Client)) :
  let s := run _hash V ops in
  ring s ≠ [] → (1 ≤ count)%Z →
  get_nodes_for_key _hash fuel s key count = Ok found →
  ∃ primary rest, get_node _hash s key = Ok (Some primary) ∧ found = primary :: rest.
Proof.
  intros s Hne Hcount. rewrite get_nodes_for_key_nonempty, get_node_nonempty by done.
  destruct fuel as [|fuel]; [done|].
  assert (0 < length (ring s)) as Hlen by (destruct (ring s); [done|simpl; lia]).
  cbn [collect]. rewrite (decide_True (P := (_ < _)%Z ∧ _)) by (split; [simpl; lia|done]).
  destruct (ring s !! _) as [p|]; [|done].
  destruct (hash2node s !! p) as [n|] eqn:Hn; [|done].
  destruct (run_owners _hash V ops p n Hn) as [c Hc]. fold s in Hc. rewrite Hc.
  rewrite (decide_True (P := _ ∉ _)) by apply not_elem_of_empty. cbn [fst snd].
  case_decide.
  - intros [= <-]. by exists (n, c), [].
  - intros [rest ->]%collect_prefix. by exists (n, c), rest.
Qed.

Lemma points_owned_of_keyed s :
  points_keyed s → owners_registered s → points_owned s.
Proof.
  unfold points_keyed, points_owned. rewrite !Forall_forall.
  intros Hk Ho p Hp. destruct (Hk p Hp) as [n Hn]. rewrite Hn. simpl. by eapply Ho.
Qed.

Lemma get_node_on_owned_ring s (key : string) :
  points_owned s →
  ∃ o, get_node _hash s key = Ok o ∧ (o = None ↔ ring s = []).
Proof.
  intros Hpo. destruct (decide (ring s = [])) as [Hnil|Hne].
  { exists None. unfold get_node. by rewrite Hnil. }
  rewrite get_node_nonempty by done.
  destruct (lookup_lt_is_Some_2 (ring s)
    (if decide (bisect.bisect (ring s) (_hash key) = length (ring s))
     then 0 else bisect.bisect (ring s) (_hash key))) as [p Hp].
  { pose proof (bisect_right_le_length (ring s) (_hash key)).
    unfold bisect.bisect in *. case_decide; [|lia].
    destruct (ring s); [done|simpl; lia]. }
  rewrite Hp. unfold points_owned in Hpo. rewrite Forall_forall in Hpo.
  destruct (Hpo p) as [c Hc]; [by eapply list_elem_of_lookup_2|].
  destruct (hash2node s !! p) as [n|]; [|done]. simpl in Hc. rewrite Hc.
  eexists. split; [done|]. split; done.
Qed.

(** X5. Lookups do not raise on the rings a program normally has: after a
    history of [add_node] calls only (whatever the hash values), or after
    any history without colliding points, [get_node] returns, with a node
    exactly when the ring has a point, and the replica-set lookup raises
    nothing. *)
Theorem lookups_do_not_raise (V : Z) ops (key : string) (count : Z) (fuel : nat) :
  let s := run _hash V ops in
  add_only ops ∨ collision_free _hash (new_ring V) ops = true →
  (∃ o, get_node _hash s key = Ok o ∧ (o = None ↔ ring s = [])) ∧
  (∀ x, get_nodes_for_key _hash fuel s key count ≠ Raise x).
Proof.
  intros s Hhist.
  assert (points_keyed s) as Hk.
  { destruct Hhist as [Hadd|Hfree]; [by apply run_add_only_keyed|].
    destruct (collision_free_inv_run _hash V ops Hfree) as (_ & Hdom & _).
    apply Forall_forall. intros p Hp. by apply Hdom. }
  split.
  - apply get_node_on_owned_ring, points_owned_of_keyed; [done|]. apply run_owners.
  - intros x. by apply get_nodes_for_key_no_raise.
Qed.

(** With no point per node the ring stays empty. *)
Lemma run_without_points (V : Z) ops :
  (V ≤ 0)%Z → ring (run _hash V ops) = [].
Proof.
  intros HV.
  cut (ring (run _hash V ops) = [] ∧ replicas (run _hash V ops) = V); [by intros []|].
  apply run_ind; [done|]. intros s [name c|name] [Hring Hrep]; simpl.
  - rewrite replicas_add_node. split; [|done].
    destruct (nodes s !! name) as [c'|] eqn:Hn.
    { rewrite add_node_registered; [done|by eexists]. }
    rewrite ring_add_node by done. rewrite Hring, Hrep. unfold points.
    replace (Z.to_nat V) with 0 by lia. done.
  - rewrite replicas_remove_node. split; [|done].
    destruct (nodes s !! name) as [c'|] eqn:Hn.
    2: { by rewrite remove_node_absent. }
    rewrite ring_remove_node by (by eexists). apply elem_of_nil_inv. intros x Hx.
    apply (remove_fold_elem_of (hash2node s, ring s)) in Hx.
    + simpl in Hx. rewrite Hring in Hx. by apply elem_of_nil in Hx.
    + simpl. rewrite Hring. constructor.
Qed.

(** X6. A ring made with [replicas ≤ 0] answers "no node" for ever: however
    many nodes are registered, the ring has no point, [get_node] returns
    no node and every replica set is empty. *)
Theorem ring_without_points_finds_nothing (V : Z) ops (key : string) (count : Z)
    (fuel : nat) :
  (V ≤ 0)%Z →
  ring (run _hash V ops) = [] ∧
  get_node _hash (run _hash V ops) key = Ok None ∧
  get_nodes_for_key _hash fuel (run _hash V ops) key count = Ok [].
Proof.
  intros HV. pose proof (run_without_points V ops HV) as Hring.
  unfold get_node, get_nodes_for_key. by rewrite Hring.
Qed.

(** ** Membership and points *)

Lemma membership_inv_new (V : Z) :
  membership_inv _hash V (new_ring (Client:=Client) V).
Proof.
  split; [done|]. split; [|split].
  - intros p n. simpl. rewrite !lookup_empty. split; [done|]. by intros [[? ?] _].
  - intros n [c Hc]. simpl in Hc. by rewrite lookup_empty in Hc.
  - simpl. rewrite map_size_empty. lia.
Qed.

Lemma membership_inv_add (V : Z) s name c :
  collision_free_inv s → membership_inv _hash V s →
  nodes s !! name = None →
  NoDup (points _hash (replicas s) name) →
  Forall (λ p, p ∉ ring s) (points _hash (replicas s) name) →
  membership_inv _hash V (add_node _hash s name c).
Proof.
  intros (_ & Hdom & _) (HV & Hmem & Hnd & Hlen) Hfresh Hpts Hdisj.
  rewrite HV in Hpts, Hdisj. rewrite Forall_forall in Hdisj.
  split; [by rewrite replicas_add_node|]. split; [|split].
  - intros p n. rewrite hash2node_add_node, nodes_add_node, HV by done.
    case_decide as Hp.
    + split.
      * intros [= <-]. split; [|done]. rewrite lookup_insert_eq. by eexists.
      * intros [Hreg Hpn]. f_equal. destruct (decide (n = name)) as [|Hne]; [done|].
        rewrite lookup_insert_ne in Hreg by done.
        exfalso. apply (Hdisj p Hp). apply Hdom. exists n. apply Hmem. by split.
    + rewrite Hmem. split.
      * intros [Hreg Hpn]. split; [|done].
        rewrite lookup_insert_ne; [done|]. intros <-.
        destruct Hreg as [c' Hc']. congruence.
      * intros [Hreg Hpn]. split; [|done].
        destruct (decide (n = name)) as [->|Hne]; [done|].
        by rewrite lookup_insert_ne in Hreg.
  - intros n Hreg. rewrite nodes_add_node in Hreg by done.
    destruct (decide (n = name)) as [->|Hne]; [done|].
    rewrite lookup_insert_ne in Hreg by done. by apply Hnd.
  - rewrite ring_add_node, merge_sort_Permutation, length_app by done.
    rewrite length_points, nodes_add_node, map_size_insert_None, HV by done.
    rewrite Hlen. lia.
Qed.

Lemma membership_inv_remove (V : Z) s name :
  StronglySorted Z.le (ring s) →
  collision_free_inv s → membership_inv _hash V s →
  membership_inv _hash V (remove_node s name).
Proof.
  intros Hs (_ & Hdom & _) (HV & Hmem & Hnd & Hlen).
  destruct (nodes s !! name) as [c|] eqn:Hn.
  2: { by rewrite remove_node_absent. }
  assert (is_Some (nodes s !! name)) as Hreg by (by eexists).
  split; [by rewrite replicas_remove_node|]. split; [|split].
  - intros p n. rewrite hash2node_remove_node, nodes_remove_node by done.
    case_decide as Hown.
    + split; [done|]. intros [[c' Hc']%lookup_delete_is_Some Hpn].
      exfalso. assert (hash2node s !! p = Some n) as Hn' by (apply Hmem; by split).
      congruence.
    + rewrite Hmem, lookup_delete_is_Some. split.
      * intros [Hr Hpn]. split; [|done]. split; [|done].
        intros <-. apply Hown. apply Hmem. by split.
      * by intros [[_ Hr] Hpn].
  - intros n Hr. rewrite nodes_remove_node in Hr.
    apply lookup_delete_is_Some in Hr as [_ Hr]. by apply Hnd.
  - pose proof (remove_fold_perm (hash2node s, ring s) (to_remove (hash2node s) name)
                  Hs (NoDup_to_remove _ _)) as Hperm.
    rewrite <-ring_remove_node in Hperm by done. simpl in Hperm.
    assert (ring s ≡ₚ to_remove (hash2node s) name ++ ring (remove_node s name)) as Hp.
    { apply Hperm. intros h Hh%elem_of_to_remove. apply Hdom. by eexists. }
    assert (to_remove (hash2node s) name ≡ₚ points _hash V name) as Hpts.
    { apply NoDup_Permutation; [apply NoDup_to_remove|by apply Hnd|].
      intros p. rewrite elem_of_to_remove, Hmem. split; [by intros []|by split]. }
    rewrite Hp, length_app, Hpts, length_points in Hlen.
    rewrite nodes_remove_node, map_size_delete_Some by done.
    assert (size (nodes s) ≠ 0) as Hsize.
    { intros Hz%map_size_empty_iff. by rewrite Hz, lookup_empty in Hn. }
    destruct (size (nodes s)) as [|k]; [done|]. simpl.
    rewrite Nat.mul_succ_r in Hlen. lia.
Qed.

Lemma membership_inv_foldl (V : Z) ops s :
  StronglySorted Z.le (ring s) →
  collision_free_inv s → membership_inv _hash V s →
  collision_free _hash s ops = true →
  membership_inv _hash V (foldl (apply_op _hash) s ops).
Proof.
  revert s. induction ops as [|o ops IH]; intros s Hs Hinv Hmem Hfree; simpl; [done|].
  simpl in Hfree. apply andb_true_iff in Hfree as [Ho Hfree].
  destruct o as [name c|name]; simpl in *.
  - destruct (nodes s !! name) as [c'|] eqn:Hn.
    { rewrite add_node_registered in * by (by eexists). by apply IH. }
    apply orb_true_iff in Ho as [Ho|Ho].
    { apply bool_decide_eq_true in Ho as [? ?]. congruence. }
    apply bool_decide_eq_true in Ho as [Hnd Hdisj].
    apply IH; [by apply add_node_sorted|by apply collision_free_inv_add|
               by apply membership_inv_add|done].
  - apply IH; [by apply remove_node_sorted|by apply collision_free_inv_remove|
               by apply membership_inv_remove|done].
Qed.

(** X7. After every history without colliding points, the ring and the
    membership agree: the points of the ring are the points of the
    registered nodes and no others, [hash2node] gives each point to the
    node it was computed for, and the ring holds exactly [V] points per
    registered node. *)
Theorem ring_holds_points_of_members (V : Z) ops :
  let s := run _hash V ops in
  collision_free _hash (new_ring V) ops = true →
  (∀ p, p ∈ ring s ↔ ∃ n, is_Some (nodes s !! n) ∧ p ∈ points _hash V n) ∧
  (∀ p n, hash2node s !! p = Some n ↔
          is_Some (nodes s !! n) ∧ p ∈ points _hash V n) ∧
  length (ring s) = Z.to_nat V * size (nodes s).
Proof.
  intros s Hfree.
  destruct (collision_free_inv_run _hash V ops Hfree) as (_ & Hdom & _).
  destruct (membership_inv_foldl V ops (new_ring V)) as (_ & Hmem & _ & Hlen);
    [constructor|apply collision_free_inv_new|apply membership_inv_new|done|].
  split; [|by split].
  intros p. fold s in Hdom. rewrite Hdom. split.
  - intros [n Hn]. exists n. by apply Hmem.
  - intros [n Hn]. exists n. by apply Hmem.
Qed.

End ring_extras.

(** ** The second replica is where the key goes when the primary leaves *)

Section failover.
Context {Client : Type}.
Variable _hash : string → Z.
Implicit Types (s : ConsistentHashRing Client) (ops : list (op Client)).

(** The points in the order in which the loop of the replica-set lookup
    meets them from position [i] are [drop i r ++ take i r]; one turn of
    the loop moves the first of them to the end. *)
Lemma rotation_step (r : list Z) (i : nat) (x : Z) :
  r !! (if decide (i = length r) then 0 else i) = Some x →
  drop i r ++ take i r =
    x :: (drop (S (if decide (i = length r) then 0 else i)) r ++
          take (if decide (i = length r) then 0 else i) r) ∧
  drop (S (if decide (i = length r) then 0 else i)) r ++
  take (S (if decide (i = length r) then 0 else i)) r =
    (drop (S (if decide (i = length r) then 0 else i)) r ++
     take (if decide (i = length r) then 0 else i) r) ++ [x].
Proof.
  intros Hx. case_decide as Hd.
  - subst i. rewrite drop_all, (take_ge r (length r)), take_0, app_nil_r by lia.
    rewrite (take_S_r r 0 x Hx), take_0. simpl. split; [|done].
    rewrite <-(drop_0 r) at 1. by apply drop_S.
  - rewrite (drop_S r x i Hx), (take_S_r r i x Hx). split; [done|].
    by rewrite (assoc_L (++)).
Qed.

Lemma snoc_split (pre post t : list Z) (p x : Z) :
  pre ++ p :: post = t ++ [x] → p ≠ x → ∃ post', t = pre ++ p :: post'.
Proof.
  intros Heq Hpx. destruct post as [|y post' _] using rev_ind.
  - apply app_inj_tail in Heq as [_ Heq]. done.
  - exists post'. change (p :: post' ++ [y]) with ((p :: post') ++ [y]) in Heq.
    rewrite (assoc_L (++)) in Heq. by apply app_inj_tail in Heq as [<- _].
Qed.

(** Where the loop finds the second node: all the points it met before
    belong to the first node. *)
Lemma collect_second s (count : Z) (n1 : string) (c1 : Client) :
  owners_registered s →
  ∀ (fuel i : nat) (n2 : string) (c2 : Client) rest,
    collect fuel s count i [(n1, c1)] {[n1]} = Ok ((n1, c1) :: (n2, c2) :: rest) →
    n2 ≠ n1 ∧
    ∃ pre p2 post,
      drop i (ring s) ++ take i (ring s) = pre ++ p2 :: post ∧
      Forall (λ p, hash2node s !! p = Some n1) pre ∧
      hash2node s !! p2 = Some n2.
Proof.
  intros Ho. induction fuel as [|fuel IH]; intros i n2 c2 rest; cbn [collect]; [done|].
  case_decide as Hcond; [|done].
  destruct (ring s !! _) as [x|] eqn:Hx; [|done].
  destruct (hash2node s !! x) as [n|] eqn:Hn; [|done].
  destruct (Ho x n Hn) as [c Hc]. rewrite Hc.
  destruct (rotation_step (ring s) i x Hx) as [Hrot Hrot'].
  destruct (decide (n ∉ ({[n1]} : gset string))) as [Hfresh|Hold]; cbn [fst snd].
  - intros Hout.
    assert (n2 = n ∧ c2 = c) as [-> ->].
    { destruct (decide (size _ = size (nodes s))); [by simplify_eq/=|].
      apply collect_prefix in Hout as [k Hk]. by simplify_eq/=. }
    split; [by apply not_elem_of_singleton in Hfresh|].
    eexists [], x, _. split; [exact Hrot|]. by split.
  - apply dec_stable, elem_of_singleton in Hold. subst n.
    destruct (decide (size _ = size (nodes s))); [by intros [=]|]. intros Hout.
    destruct (IH _ _ _ _ Hout) as (Hne & pre & p2 & post & Hr & Hall & Hp2).
    split; [done|].
    rewrite Nat.add_1_r, Hrot' in Hr. symmetry in Hr.
    apply snoc_split in Hr as [post' Ht]; [|congruence].
    exists (x :: pre), p2, post'. rewrite Hrot, Ht.
    split; [done|]. split; [by constructor|done].
Qed.

(** The successor of [h] among the points that are kept, when the points
    met first from the position of [h] are not kept. *)
Lemma successor_among_kept (r kept : list Z) (idx : nat) (h p2 : Z)
    (pre post : list Z) (drops : Z → Prop) :
  StronglySorted Z.le r →
  (∀ q, q ∈ drop idx r → (h < q)%Z) →
  (∀ q, q ∈ take idx r → (q ≤ h)%Z) →
  drop idx r ++ take idx r = pre ++ p2 :: post →
  (∀ q, q ∈ pre → drops q) →
  (∀ q, q ∈ kept → q ∈ r ∧ ¬ drops q) →
  p2 ∈ kept →
  is_successor kept h p2.
Proof.
  intros Hs Hgt Hle Hrot Hpre Hkept Hp2. split; [done|].
  rewrite <-(take_drop idx r) in Hs.
  apply StronglySorted_app in Hs as (_ & Hs_take & Hs_drop).
  assert (∀ q, q ∈ kept → q ∈ take idx r ∨ q ∈ drop idx r) as Hsplit.
  { intros q [Hq _]%Hkept. rewrite <-(take_drop idx r) in Hq.
    by apply elem_of_app in Hq. }
  assert ((∃ k', drop idx r = pre ++ p2 :: k') ∨
          (∃ k, take idx r = k ++ p2 :: post ∧
                (∀ q, q ∈ k → drops q) ∧ ∀ q, q ∈ drop idx r → drops q)) as [Hcase|Hcase].
  { apply app_eq_inv in Hrot as [(k & Hd & Hk)|(k & Hd & Hk)].
    - destruct k as [|y k'].
      + right. exists []. simpl in Hk. rewrite app_nil_r in Hd.
        split; [done|]. split; [by intros q ?%elem_of_nil|].
        intros q Hq. rewrite Hd in Hq. by apply Hpre.
      + left. injection Hk as <- _. by exists k'.
    - right. exists k. split; [done|]. split.
      + intros q Hq. apply Hpre. rewrite Hd. apply elem_of_app. by right.
      + intros q Hq. apply Hpre. rewrite Hd. apply elem_of_app. by left. }
  - destruct Hcase as [k' Hd]. left. split.
    + apply Hgt. rewrite Hd. apply elem_of_app. right. by left.
    + intros q Hq Hhq. destruct (Hsplit q Hq) as [Hin|Hin].
      { specialize (Hle q Hin). lia. }
      rewrite Hd in Hin, Hs_drop.
      apply elem_of_app in Hin as [Hin|Hin].
      { destruct (Hkept q Hq) as [_ Hnd]. by destruct Hnd; apply Hpre. }
      apply StronglySorted_app_1_r, StronglySorted_cons in Hs_drop as [Hall _].
      rewrite Forall_forall in Hall.
      apply elem_of_cons in Hin as [->|Hin]; [lia|by apply Hall].
  - destruct Hcase as (k & Ht & Hk & Hd). right.
    assert (∀ q, q ∈ kept → q ∈ take idx r) as Hin_take.
    { intros q Hq. destruct (Hsplit q Hq) as [Hin|Hin]; [done|].
      destruct (Hkept q Hq) as [_ Hnd]. by destruct Hnd; apply Hd. }
    split.
    + intros q Hq. by apply Hle, Hin_take.
    + intros q Hq. pose proof (Hin_take q Hq) as Hin.
      rewrite Ht in Hin, Hs_take.
      apply elem_of_app in Hin as [Hin|Hin].
      { destruct (Hkept q Hq) as [_ Hnd]. by destruct Hnd; apply Hk. }
      apply StronglySorted_app_1_r, StronglySorted_cons in Hs_take as [Hall _].
      rewrite Forall_forall in Hall.
      apply elem_of_cons in Hin as [->|Hin]; [lia|by apply Hall].
Qed.

(** X8. The replica order is the failover order: after every history
    without colliding points, if the replica set of a key begins with the
    nodes [n1] and [n2], then once [n1] is removed the primary of the key
    is [n2], with the same handle. *)
Theorem second_replica_takes_over (V : Z) ops (key : string) (count : Z) (fuel : nat)
    (n1 n2 : string) (c1 c2 : Client) (rest : list (string * Client)) :
  let s := run _hash V ops in
  collision_free _hash (new_ring V) ops = true →
  get_nodes_for_key _hash fuel s key count = Ok ((n1, c1) :: (n2, c2) :: rest) →
  get_node _hash (remove_node s n1) key = Ok (Some (n2, c2)).
Proof.
  intros s Hfree Hlook.
  pose proof (run_sorted _hash V ops) as Hs. fold s in Hs.
  pose proof (run_owners _hash V ops) as Ho. fold s in Ho.
  pose proof (collision_free_inv_run _hash V ops Hfree) as Hinv. fold s in Hinv.
  pose proof (collision_free_inv_remove s n1 Hs Hinv) as (_ & Hdom' & _).
  destruct (get_nodes_for_key_sound _ _ _ _ _ _ Hlook) as [_ Hreg].
  apply Forall_cons in Hreg as [Hc1 Hreg]. apply Forall_cons in Hreg as [Hc2 _].
  simpl in Hc1, Hc2.
  assert (ring s ≠ []) as Hne.
  { intros Hnil. unfold get_nodes_for_key in Hlook. by rewrite Hnil in Hlook. }
  rewrite get_nodes_for_key_nonempty in Hlook by done.
  set (idx := bisect.bisect (ring s) (_hash key)) in *.
  destruct fuel as [|fuel]; [done|]. cbn [collect] in Hlook.
  destruct (decide ((Z.of_nat (length (@nil (string * Client))) < count)%Z ∧
                    0 < length (ring s))) as [_|]; [|done].
  destruct (ring s !! _) as [x0|] eqn:Hx0; [|done].
  destruct (hash2node s !! x0) as [n|] eqn:Hn0; [|done].
  destruct (Ho x0 n Hn0) as [c Hc]. rewrite Hc in Hlook.
  rewrite (decide_True (P := _ ∉ _)) in Hlook by apply not_elem_of_empty.
  cbn [fst snd] in Hlook. rewrite (left_id_L ∅ (∪)) in Hlook.
  destruct (decide (size _ = size (nodes s))); [by simplify_eq/=|].
  assert (n = n1 ∧ c = c1) as [-> ->].
  { apply collect_prefix in Hlook as [k Hk]. by simplify_eq/=. }
  simpl in Hlook.
  destruct (collect_second s count n1 c1 Ho _ _ _ _ _ Hlook)
    as (Hn21 & pre & p2 & post & Hr & Hpre & Hp2).
  destruct (rotation_step (ring s) idx x0 Hx0) as [Hrot Hrot'].
  rewrite Nat.add_1_r, Hrot' in Hr. symmetry in Hr.
  apply snoc_split in Hr as [post' Ht]; [|congruence].
  rewrite Ht in Hrot. clear Hrot' Ht.
  assert (is_Some (nodes s !! n1)) as Hreg1 by (by eexists).
  assert (hash2node (remove_node s n1) !! p2 = Some n2) as Hp2'.
  { rewrite hash2node_remove_node by done. rewrite decide_False by congruence. done. }
  rewrite get_node_via_successor by (by apply remove_node_sorted).
  rewrite (is_successor_ring_successor _ _ p2); [|by apply remove_node_sorted|].
  { rewrite Hp2', nodes_remove_node, lookup_delete_ne by done. by rewrite Hc2. }
  rewrite Forall_forall in Hpre.
  destruct (bisect_right_spec (ring s) (_hash key) Hs) as (_ & Hle & Hgt).
  apply (successor_among_kept (ring s) _ idx _ p2 (x0 :: pre) post'
           (λ q, hash2node s !! q = Some n1)); [done| | |done| | |].
  - intros q [k Hk]%list_elem_of_lookup. rewrite lookup_drop in Hk.
    apply (Hgt _ _ (Nat.le_add_r _ _) Hk).
  - intros q (k & Hk & Hlt)%elem_of_take. by apply (Hle k).
  - intros q [->|Hq]%elem_of_cons; [done|by apply Hpre].
  - intros q Hq. split.
    + rewrite ring_remove_node in Hq by done.
      by apply (remove_fold_elem_of (hash2node s, ring s)) in Hq.
    + apply Hdom' in Hq as [m Hm]. rewrite hash2node_remove_node in Hm by done.
      by case_decide.
  - apply Hdom'. by eexists.
Qed.

End failover.

(** * Further properties of the client *)

Section init_extras.
Context {Client : Type}.
Variable _hash : string → Z.
Implicit Types (s : ConsistentHashRing Client).

Lemma nodes_add_node_union s (name : string) (c : Client) :
  nodes (add_node _hash s name c) = nodes s ∪ {[name := c]}.
Proof.
  destruct (nodes s !! name) as [c'|] eqn:Hn.
  - rewrite add_node_registered by (by eexists). apply map_eq. intros n.
    rewrite lookup_union. destruct (decide (n = name)) as [->|Hne].
    + by rewrite Hn, lookup_singleton_eq.
    + rewrite lookup_singleton_ne by done. by destruct (nodes s !! n).
  - rewrite nodes_add_node by done. by apply insert_union_singleton_r.
Qed.

Lemma nodes_foldl_add s (l : list (string * Client)) :
  nodes (foldl (apply_op _hash) s ((λ nc, AddNode nc.1 nc.2) <$> l)) =
  nodes s ∪ list_to_map l.
Proof.
  revert s. induction l as [|[n c] l IH]; intros s; simpl.
  - by rewrite (right_id_L ∅ (∪)).
  - rewrite IH, nodes_add_node_union, <-(assoc_L (∪)).
    by rewrite <-insert_union_singleton_l.
Qed.

Lemma add_only_fmap {A : Type} (f : A → string * Client) (l : list A) :
  add_only ((λ a, AddNode (f a).1 (f a).2) <$> l).
Proof. unfold add_only. apply Forall_fmap, Forall_forall. by intros. Qed.

(** X9. What the constructor leaves: the registered nodes are the names
    ["host:port"] of the addresses, each with the connection made for the
    first address of that name (a repeated address is not registered
    twice, and its second connection is dropped); the replication factor is
    [max(1, replication_factor)]: the one asked for when that is at least
    one, and one otherwise; the bookkeeping is empty; the ring is one that
    [add_node] calls alone built. *)
Theorem init_registers_addresses (connect : string → Z → Z → Client)
    (addrs : list (string * Z)) (V R timeout : Z) :
  let c := DMC.init _hash connect addrs V R timeout in
  let named := (λ hp, (hp.1 +:+ ":" +:+ pretty hp.2, connect hp.1 hp.2 timeout))
                 <$> addrs in
  nodes (DMC.hash_ring c) = list_to_map named ∧
  (∃ ops, DMC.hash_ring c = run _hash V ops ∧ add_only ops) ∧
  DMC.replication_factor c = Z.max 1 R ∧
  DMC.key_map c = ∅.
Proof.
  intros c named. split; [|split; [|split]].
  - unfold c. rewrite init_ring_reachable. unfold run.
    assert ((λ hp : string * Z, AddNode (hp.1 +:+ ":" +:+ pretty hp.2)
                                  (connect hp.1 hp.2 timeout)) <$> addrs
            = (λ nc, AddNode nc.1 nc.2) <$> named) as ->.
    { unfold named. by rewrite <-list_fmap_compose. }
    rewrite nodes_foldl_add. simpl. by rewrite (left_id_L ∅ (∪)).
  - eexists. split; [apply init_ring_reachable|].
    apply (add_only_fmap (λ hp, (hp.1 +:+ ":" +:+ pretty hp.2, connect hp.1 hp.2 timeout))).
  - done.
  - done.
Qed.

End init_extras.

(** The names kept by the loop of [set], read off the outcome map. *)
Lemma stored_nodes_by_outcome (results : gmap string bool) (names : list string)
    (oks : list bool) :
  length oks = length names →
  (∀ j n ok, names !! j = Some n → oks !! j = Some ok → results !! n = Some ok) →
  (filter (λ no, no.2 = true) (zip names oks)).*1
    = filter (λ n, results !! n = Some true) names ∧
  (true ∈ oks ↔ filter (λ n, results !! n = Some true) names ≠ []).
Proof.
  revert oks. induction names as [|n names IH]; intros [|ok oks] Hlen Hres;
    simplify_eq/=.
  { split; [done|]. split; [by intros ?%elem_of_nil|done]. }
  destruct (IH oks) as [IH1 IH2]; [done| |].
  { intros j n' ok' Hj Hok. by apply (Hres (S j)). }
  pose proof (Hres 0 n ok eq_refl eq_refl) as Hn.
  destruct ok.
  - rewrite !filter_cons_True by done. rewrite fmap_cons, IH1.
    split; [done|]. split; [done|]. intros _. by left.
  - rewrite !filter_cons_False by (simpl; congruence).
    split; [done|]. rewrite <-IH2, elem_of_cons. naive_solver.
Qed.

Section bookkeeping_extras.
Context {Client World : Type}.
Variable _hash : string → Z.
Variable client_set : Client → string → PyVal → Z → World → reply unit * World.
Variable client_delete : Client → string → World → reply unit * World.
Implicit Types (c : DMC.t Client) (e : DMC.Env World).
Implicit Types (nodes : list (string * Client)) (oks : list bool).

(** What [set] returns and leaves, in one piece. *)
Lemma set_result (fuel : nat) c (key : string) (value : PyVal) (ttl : Z) e nodes :
  get_nodes_for_key _hash fuel (DMC.hash_ring c) key (DMC.replication_factor c)
    = Ok nodes →
  ∃ success results e',
    DMC.set _hash client_set fuel c key value ttl e =
      Ok (success, results,
          DMC.mkClient (DMC.hash_ring c) (DMC.replication_factor c)
            (<[key := filter (λ n, results !! n = Some true) nodes.*1]>
               (DMC.key_map c)),
          e') ∧
    (success = true ↔ filter (λ n, results !! n = Some true) nodes.*1 ≠ []).
Proof.
  intros Hnodes. unfold DMC.set. rewrite Hnodes.
  set (st0 := DMC.mkSetState ∅ false [] e).
  destruct (set_fold client_set key value ttl nodes st0)
    as (oks & Hlen & _ & Hst & Hsucc & _ & Hres).
  destruct (get_nodes_for_key_sound _ _ _ _ _ _ Hnodes) as [Hnd _].
  specialize (Hres Hnd).
  destruct (stored_nodes_by_outcome
              (DMC.set_results (foldl (DMC.set_step client_set key value ttl) st0 nodes))
              nodes.*1 oks) as [Hstored Hany];
    [by rewrite length_fmap|exact Hres|].
  simpl in Hst, Hsucc. rewrite Hstored in Hst.
  eexists _, _, _. split.
  - by rewrite Hst.
  - rewrite Hsucc, <-Hany. split; [by intros [?|?]|by right].
Qed.

(** X10. What [set] writes in the bookkeeping: whenever the replica-set
    lookup returns, the entry of the key becomes the list of the nodes of
    the replica set whose outcome in the returned map is [True], in the
    order of the replica set; [success] is [True] exactly when that list
    is not empty; the entries of the other keys, the ring and the
    replication factor are as before. *)
Theorem set_records_successful_nodes (fuel : nat) c (key : string) (value : PyVal)
    (ttl : Z) e nodes :
  get_nodes_for_key _hash fuel (DMC.hash_ring c) key (DMC.replication_factor c)
    = Ok nodes →
  ∃ success results c' e',
    DMC.set _hash client_set fuel c key value ttl e = Ok (success, results, c', e') ∧
    DMC.key_map c' !! key =
      Some (filter (λ n, results !! n = Some true) nodes.*1) ∧
    (success = true ↔ DMC.key_map c' !! key ≠ Some []) ∧
    (∀ k, k ≠ key → DMC.key_map c' !! k = DMC.key_map c !! k) ∧
    DMC.hash_ring c' = DMC.hash_ring c ∧
    DMC.replication_factor c' = DMC.replication_factor c.
Proof.
  intros Hnodes.
  destruct (set_result fuel c key value ttl e nodes Hnodes)
    as (success & results & e' & Hset & Hsucc).
  eexists success, results, _, e'. split; [exact Hset|]. simpl.
  rewrite lookup_insert_eq. split; [done|]. split; [|split; [|done]].
  - rewrite Hsucc. split; [congruence|]. intros Hne Hnil. apply Hne. by rewrite Hnil.
  - intros k Hk. by rewrite lookup_insert_ne.
Qed.

(** X11. [set] then [delete] of the same key: when both return, the
    bookkeeping is the one before [set] without the key, whatever the
    nodes answered to either call. *)
Theorem set_then_delete_forgets_key (fuel : nat) c (key : string) (value : PyVal)
    (ttl : Z) e success results c1 e1 deleted c2 e2 :
  DMC.set _hash client_set fuel c key value ttl e = Ok (success, results, c1, e1) →
  DMC.delete_key _hash client_delete fuel c1 key e1 = Ok (deleted, c2, e2) →
  DMC.key_map c2 = delete key (DMC.key_map c) ∧
  DMC.hash_ring c2 = DMC.hash_ring c ∧
  dom deleted = dom results.
Proof.
  unfold DMC.set, DMC.delete_key.
  destruct (get_nodes_for_key _ _ _ _ _) as [nodes| |] eqn:Hnodes; [|done..].
  intros [= <- <- <- <-]. simpl. rewrite Hnodes. intros [= <- <- <-]. simpl.
  split; [by rewrite delete_insert_eq|]. split; [done|].
  destruct (get_nodes_for_key_sound _ _ _ _ _ _ Hnodes) as [Hnd _].
  destruct (set_fold client_set key value ttl nodes (DMC.mkSetState ∅ false [] e))
    as (oks & Hlen & _ & _ & _ & Hother & Hres).
  destruct (delete_fold client_delete key nodes
              (∅, DMC.set_env (foldl (DMC.set_step client_set key value ttl)
                                 (DMC.mkSetState ∅ false [] e) nodes)))
    as (oks' & Hlen' & _ & Hother' & Hres').
  specialize (Hres Hnd). specialize (Hres' Hnd).
  apply set_eq. intros n. rewrite !elem_of_dom.
  destruct (decide (n ∈ nodes.*1)) as [Hin|Hnin].
  - apply list_elem_of_lookup in Hin as [j Hj].
    destruct (lookup_lt_is_Some_2 oks j) as [ok Hok].
    { apply lookup_lt_Some in Hj. rewrite length_fmap in Hj. lia. }
    destruct (lookup_lt_is_Some_2 oks' j) as [ok' Hok'].
    { apply lookup_lt_Some in Hj. rewrite length_fmap in Hj. lia. }
    rewrite (Hres _ _ _ Hj Hok), (Hres' _ _ _ Hj Hok'). split; by eexists.
  - rewrite Hother, Hother' by done. simpl. by rewrite !lookup_empty.
Qed.

End bookkeeping_extras.

(** *** The counts of [distribution_stats] *)

Lemma count_fold_default (counts : gmap string Z) (l : list string) (n : string) :
  default 0%Z (foldl DMC.count_node counts l !! n) =
  (default 0 (counts !! n) + Z.of_nat (length (filter (λ m, m = n) l)))%Z.
Proof.
  revert counts. induction l as [|m l IH]; intros counts; cbn [foldl].
  { simpl. lia. }
  rewrite IH. unfold DMC.count_node. destruct (decide (m = n)) as [->|Hne].
  - rewrite lookup_insert_eq, filter_cons_True by done. simpl. lia.
  - rewrite lookup_insert_ne, filter_cons_False by done. done.
Qed.

Lemma count_fold_is_Some (counts : gmap string Z) (l : list string) (n : string) :
  is_Some (foldl DMC.count_node counts l !! n) ↔ is_Some (counts !! n) ∨ n ∈ l.
Proof.
  revert counts. induction l as [|m l IH]; intros counts; cbn [foldl].
  { split; [by left|]. by intros [?|?%elem_of_nil]. }
  rewrite IH, elem_of_cons. unfold DMC.count_node. destruct (decide (m = n)) as [->|Hne].
  - rewrite lookup_insert_eq. split; [intros _; by right; left|]. intros _. by left.
  - rewrite lookup_insert_ne by done.
    split; [intros [?|?]; [by left|by right; right]|].
    intros [?|[?|?]]; [by left|congruence|by right].
Qed.

Lemma count_fold_concat (counts : gmap string Z) (items : list (string * list string)) :
  foldl (λ counts kv, foldl DMC.count_node counts kv.2) counts items =
  foldl DMC.count_node counts (mjoin items.*2).
Proof.
  revert counts. induction items as [|kv items IH]; intros counts; [done|].
  rewrite fmap_cons. change (mjoin (kv.2 :: items.*2)) with (kv.2 ++ mjoin items.*2).
  cbn [foldl]. by rewrite foldl_app, IH.
Qed.

Lemma count_fold_lookup (items : list (string * list string)) (n : string) :
  foldl (λ counts kv, foldl DMC.count_node counts kv.2) ∅ items !! n =
  if decide (n ∈ mjoin items.*2)
  then Some (Z.of_nat (length (filter (λ m, m = n) (mjoin items.*2))))
  else None.
Proof.
  rewrite count_fold_concat.
  pose proof (count_fold_default ∅ (mjoin items.*2) n) as Hd.
  pose proof (count_fold_is_Some ∅ (mjoin items.*2) n) as Hs.
  rewrite lookup_empty in Hd, Hs. simpl in Hd.
  destruct (decide (n ∈ mjoin items.*2)) as [Hin|Hnin].
  - destruct (proj2 Hs (or_intror Hin)) as [k Hk]. rewrite Hk in Hd |- *.
    simpl in Hd. by rewrite Hd.
  - destruct (foldl DMC.count_node ∅ (mjoin items.*2) !! n) as [k|] eqn:Hk; [|done].
    destruct (proj1 Hs (ex_intro _ k eq_refl)) as [[? [=]]|?]; done.
Qed.

Lemma occurrences_NoDup (l : list string) (n : string) :
  NoDup l →
  length (filter (λ m, m = n) l) = if decide (n ∈ l) then 1 else 0.
Proof.
  induction 1 as [|m l Hm Hnd IH]; [done|].
  destruct (decide (m = n)) as [->|Hne].
  - rewrite filter_cons_True, (decide_True (P := n ∈ n :: l)) by (done || by left).
    simpl. rewrite IH. by rewrite (decide_False (P := n ∈ l)).
  - rewrite filter_cons_False, IH by done.
    destruct (decide (n ∈ l)) as [Hin|Hnin].
    + by rewrite (decide_True (P := n ∈ m :: l)) by (by right).
    + rewrite (decide_False (P := n ∈ m :: l)); [done|].
      intros [?|?]%elem_of_cons; congruence.
Qed.

Lemma occurrences_entries (items : list (string * list string)) (n : string) :
  Forall (λ kv, NoDup kv.2) items →
  length (filter (λ m, m = n) (mjoin items.*2)) =
  length (filter (λ kv, n ∈ kv.2) items).
Proof.
  induction 1 as [|kv items Hkv _ IH]; [done|].
  rewrite fmap_cons. change (mjoin (kv.2 :: items.*2)) with (kv.2 ++ mjoin items.*2).
  rewrite filter_app, length_app, IH.
  rewrite occurrences_NoDup by done.
  destruct (decide (n ∈ kv.2)) as [Hin|Hnin].
  - by rewrite filter_cons_True by done.
  - by rewrite filter_cons_False by done.
Qed.

Lemma occurrences_perm (items1 items2 : list (string * list string)) :
  items1 ≡ₚ items2 → mjoin items1.*2 ≡ₚ mjoin items2.*2.
Proof. intros Hp. by rewrite Hp. Qed.

Lemma occurrences_pos (l : list string) (n : string) :
  n ∈ l ↔ length (filter (λ m, m = n) l) ≠ 0.
Proof.
  split.
  - intros Hin Hlen. apply length_zero_iff_nil in Hlen.
    assert (n ∈ filter (λ m, m = n) l) as Hf by (by apply list_elem_of_filter).
    rewrite Hlen in Hf. by apply elem_of_nil in Hf.
  - intros Hlen. destruct (filter (λ m, m = n) l) as [|m l'] eqn:Hf; [done|].
    assert (m ∈ filter (λ m, m = n) l) as [-> Hm]%list_elem_of_filter; [|done].
    rewrite Hf. by left.
Qed.

Section stats_extras.
Context {Client : Type}.
Implicit Types (c : DMC.t Client).

Lemma listed_in_entry c (n : string) :
  n ∈ mjoin (map_to_list (DMC.key_map c)).*2 ↔
  ∃ k l, DMC.key_map c !! k = Some l ∧ n ∈ l.
Proof.
  rewrite list_elem_of_join. split.
  - intros (l & Hn & Hl). apply list_elem_of_fmap in Hl as ([k l'] & -> & Hkl).
    exists k, l'. split; [|done]. by apply elem_of_map_to_list.
  - intros (k & l & Hkl & Hn). exists l. split; [done|].
    apply list_elem_of_fmap. exists (k, l). split; [done|]. by apply elem_of_map_to_list.
Qed.

(** X12. [distribution_stats] counts occurrences: in whatever order the
    bookkeeping yields its entries, the two loops build the same map, and
    in it a name has no entry when no list of the bookkeeping holds it,
    and otherwise is mapped to the number of times it occurs in the lists
    of all the keys together. *)
Theorem distribution_stats_counts c (items : list (string * list string))
    (n : string) :
  items ≡ₚ map_to_list (DMC.key_map c) →
  let occurrences := length (filter (λ m, m = n) (mjoin items.*2)) in
  foldl (λ counts kv, foldl DMC.count_node counts kv.2) ∅ items
    = DMC.distribution_stats c ∧
  (occurrences = 0 → DMC.distribution_stats c !! n = None) ∧
  (occurrences ≠ 0 → DMC.distribution_stats c !! n = Some (Z.of_nat occurrences)) ∧
  (occurrences = 0 ↔ ∀ k l, DMC.key_map c !! k = Some l → n ∉ l).
Proof.
  intros Hp occurrences.
  assert (∀ m, foldl (λ counts kv, foldl DMC.count_node counts kv.2) ∅ items !! m
               = DMC.distribution_stats c !! m) as Hsame.
  { intros m. unfold DMC.distribution_stats. rewrite !count_fold_lookup.
    pose proof (occurrences_perm _ _ Hp) as Hj.
    destruct (decide (m ∈ mjoin items.*2)) as [Hin|Hnin].
    - rewrite decide_True by (by rewrite <-Hj). by rewrite Hj.
    - rewrite decide_False by (by rewrite <-Hj). done. }
  split; [by apply map_eq|].
  rewrite <-Hsame, count_fold_lookup. fold occurrences.
  pose proof (occurrences_pos (mjoin items.*2) n) as Hpos. fold occurrences in Hpos.
  split; [|split].
  - intros H0. rewrite decide_False; [done|]. rewrite Hpos. lia.
  - intros H0. by rewrite decide_True by (by apply Hpos).
  - rewrite (occurrences_perm _ _ Hp), listed_in_entry in Hpos. split.
    + intros H0 k l Hkl Hn. apply Hpos; [|done]. by exists k, l.
    + intros Hnone. destruct (decide (occurrences = 0)) as [|Hne]; [done|].
      apply Hpos in Hne as (k & l & Hkl & Hn). by destruct (Hnone k l).
Qed.

End stats_extras.

Section session_extras.
Context {Client World : Type}.
Variable _hash : string → Z.
Variable client_set : Client → string → PyVal → Z → World → reply unit * World.
Variable client_get : Client → string → World → reply (option PyVal) * World.
Variable client_delete : Client → string → World → reply unit * World.
Variable decode : string → option string.
Implicit Types (c : DMC.t Client) (e : DMC.Env World).
Implicit Types (st : res (DMC.t Client * DMC.Env World)) (m : DMC.cmd).

Lemma exec_inv (fuel : nat) st m c' e' :
  DMC.exec _hash client_set client_get client_delete decode fuel st m = Ok (c', e') →
  ∃ c e, st = Ok (c, e) ∧
    DMC.hash_ring c' = DMC.hash_ring c ∧
    DMC.replication_factor c' = DMC.replication_factor c ∧
    (bookkeeping_ok c → bookkeeping_ok c').
Proof.
  destruct st as [[c e]| |]; [|done..]. destruct m as [key value ttl|key|key]; simpl.
  - destruct (get_nodes_for_key _hash fuel (DMC.hash_ring c) key
                (DMC.replication_factor c)) as [nodes| |] eqn:Hnodes.
    2,3: by unfold DMC.set; rewrite Hnodes.
    destruct (set_result _hash client_set fuel c key value ttl e nodes Hnodes)
      as (success & results & e1 & -> & _).
    intros [= <- <-]. exists c, e. split; [done|]. split; [done|]. split; [done|].
    unfold bookkeeping_ok. simpl. intros Hok. apply map_Forall_insert_2; [|done].
    destruct (get_nodes_for_key_sound _ _ _ _ _ _ Hnodes) as [Hnd Hreg].
    split; [by apply NoDup_filter|].
    apply Forall_forall. intros n [_ Hn]%list_elem_of_filter.
    apply list_elem_of_fmap in Hn as ([n' cl] & -> & Hn).
    rewrite Forall_forall in Hreg. exists cl. by apply (Hreg (n', cl)).
  - unfold DMC.get. destruct (get_nodes_for_key _ _ _ _ _) as [nodes| |]; [|done..].
    destruct (DMC.get_loop _ _ _ _ _) as [v e1]. intros [= <- <-]. by exists c, e.
  - unfold DMC.delete_key.
    destruct (get_nodes_for_key _ _ _ _ _) as [nodes| |]; [|done..].
    intros [= <- <-]. exists c, e. split; [done|]. split; [done|]. split; [done|].
    unfold bookkeeping_ok. simpl. apply map_Forall_delete.
Qed.

Lemma session_inv (fuel : nat) c e (cmds : list DMC.cmd) c' e' :
  DMC.session _hash client_set client_get client_delete decode fuel c e cmds
    = Ok (c', e') →
  DMC.hash_ring c' = DMC.hash_ring c ∧
  DMC.replication_factor c' = DMC.replication_factor c ∧
  (bookkeeping_ok c → bookkeeping_ok c').
Proof.
  unfold DMC.session. revert c' e'.
  induction cmds as [|m cmds IH] using rev_ind; intros c' e'.
  { by intros [= <- <-]. }
  rewrite foldl_app. cbn [foldl]. intros (c1 & e1 & Hst & Hr & Hf & Hok)%exec_inv.
  destruct (IH _ _ Hst) as (Hr1 & Hf1 & Hok1).
  split; [congruence|]. split; [congruence|]. auto.
Qed.

(** X13. The statistics after any run of [set], [get] and [delete] calls
    on a client whose bookkeeping lists distinct names of registered
    nodes (a fresh client for one): when the run returns, the ring and
    the replication factor are those of the start, every name with a
    count is a registered node, and its count is the number of tracked
    keys whose list holds it, between 1 and the number of tracked keys. *)
Theorem stats_after_session (fuel : nat) c e (cmds : list DMC.cmd) c' e'
    (n : string) (k : Z) :
  bookkeeping_ok c →
  DMC.session _hash client_set client_get client_delete decode fuel c e cmds
    = Ok (c', e') →
  DMC.hash_ring c' = DMC.hash_ring c ∧
  DMC.replication_factor c' = DMC.replication_factor c ∧
  (DMC.distribution_stats c' !! n = Some k →
     is_Some (nodes (DMC.hash_ring c) !! n) ∧
     k = Z.of_nat (length (filter (λ kv : string * list string, n ∈ kv.2)
                            (map_to_list (DMC.key_map c')))) ∧
     (1 ≤ k ≤ Z.of_nat (size (DMC.key_map c')))%Z).
Proof.
  intros Hok Hrun. destruct (session_inv _ _ _ _ _ _ Hrun) as (Hr & Hf & Hok').
  specialize (Hok' Hok). split; [done|]. split; [done|].
  unfold DMC.distribution_stats. rewrite count_fold_lookup.
  destruct (decide (n ∈ mjoin _)) as [Hin|]; [|done]. intros [= <-].
  pose proof Hok' as Hitems. unfold bookkeeping_ok in Hitems.
  rewrite map_Forall_to_list in Hitems.
  rewrite occurrences_entries.
  2: { eapply Forall_impl; [exact Hitems|]. by intros [k l] [? _]. }
  split; [|split; [done|split]].
  - apply listed_in_entry in Hin as (key & l & Hkl & Hn).
    destruct (Hok' _ _ Hkl) as [_ Hreg]. rewrite Forall_forall in Hreg.
    rewrite <-Hr. by apply Hreg.
  - apply (proj1 (occurrences_pos _ _)) in Hin.
    rewrite occurrences_entries in Hin.
    2: { eapply Forall_impl; [exact Hitems|]. by intros [k l] [? _]. }
    lia.
  - rewrite <-length_map_to_list. apply inj_le, length_filter.
Qed.

End session_extras.

Section empty_ring_extras.
Context {Client World : Type}.
Variable _hash : string → Z.
Variable connect : string → Z → Z → Client.
Variable client_set : Client → string → PyVal → Z → World → reply unit * World.
Variable client_get : Client → string → World → reply (option PyVal) * World.
Variable client_delete : Client → string → World → reply unit * World.
Variable decode : string → option string.
Implicit Types (e : DMC.Env World).

Lemma init_without_points (addrs : list (string * Z)) (V R timeout : Z) :
  (V ≤ 0)%Z ∨ addrs = [] →
  ring (DMC.hash_ring (DMC.init _hash connect addrs V R timeout)) = [].
Proof.
  intros [HV| ->]; [|done].
  rewrite init_ring_reachable. by apply run_without_points.
Qed.

(** X14. A client built with no address, or with [replicas ≤ 0], has a
    ring without points, and its calls do nothing on the fleet: [set]
    returns [(False, {})] and records the key with an empty node list,
    which adds nothing to the statistics; [get] returns [None];
    [delete] returns [{}] and leaves the client as it was.  None raises,
    whatever the fuel. *)
Theorem client_without_points (addrs : list (string * Z)) (V R timeout : Z)
    (fuel : nat) (key : string) (value : PyVal) (ttl : Z) e :
  (V ≤ 0)%Z ∨ addrs = [] →
  let c := DMC.init _hash connect addrs V R timeout in
  let c1 := DMC.mkClient (DMC.hash_ring c) (DMC.replication_factor c) {[key := []]} in
  DMC.set _hash client_set fuel c key value ttl e = Ok (false, ∅, c1, e) ∧
  DMC.distribution_stats c1 = ∅ ∧
  DMC.get _hash client_get decode fuel c key e = Ok (None, e) ∧
  DMC.delete_key _hash client_delete fuel c key e = Ok (∅, c, e).
Proof.
  intros Hno c c1. pose proof (init_without_points addrs V R timeout Hno) as Hring.
  fold c in Hring.
  assert (∀ count, get_nodes_for_key _hash fuel (DMC.hash_ring c) key count = Ok [])
    as Hnodes.
  { intros count. unfold get_nodes_for_key. by rewrite Hring. }
  unfold DMC.set, DMC.get, DMC.delete_key. rewrite !Hnodes. simpl.
  split; [by rewrite insert_empty|]. split; [|split; [done|]].
  - unfold DMC.distribution_stats, c1. simpl. by rewrite map_to_list_singleton.
  - by rewrite delete_empty.
Qed.

End empty_ring_extras.

(** ** The further properties on the concrete fleet *)

Lemma remove_node_keeps_other_primaries_witness :
  get_node byte_sum (remove_node (run byte_sum 1 two_nodes) node_b) "k"
  = Ok (Some (node_a, 11211%Z)).
Proof.
  apply (remove_node_keeps_other_primaries byte_sum 1 two_nodes node_b "k"
           node_a 11211%Z).
  - by vm_compute.
  - vm_compute. discriminate.
Defined.

Lemma removed_node_is_not_returned_witness : node_b ≠ node_a.
Proof.
  apply (proj1 (removed_node_is_not_returned byte_sum (run byte_sum 1 two_nodes)
                  node_a "k" 2 5) node_b 11212%Z).
  by vm_compute.
Defined.

Lemma add_node_moves_keys_to_new_node_only_witness :
  let s := run byte_sum 1 [AddNode node_a 11211%Z] in
  get_node byte_sum (add_node byte_sum s node_b 11212%Z) "k"
    = Ok (Some (node_b, 11212%Z)) ∨
  get_node byte_sum (add_node byte_sum s node_b 11212%Z) "k" = get_node byte_sum s "k".
Proof.
  apply (add_node_moves_keys_to_new_node_only byte_sum 1 [AddNode node_a 11211%Z]
           node_b "k" 11212%Z).
  - by vm_compute.
  - compute_done.
Defined.

Lemma replica_set_starts_with_primary_witness :
  ∃ primary rest,
    get_node byte_sum (run byte_sum 1 two_nodes) "k" = Ok (Some primary) ∧
    [(node_a, 11211%Z); (node_b, 11212%Z)] = primary :: rest.
Proof.
  apply (replica_set_starts_with_primary byte_sum 1 two_nodes "k" 2 5).
  - vm_compute. discriminate.
  - lia.
  - by vm_compute.
Defined.

Lemma lookups_do_not_raise_witness :
  let s := run byte_sum 1 (two_nodes ++ [RemoveNode node_a]) in
  (∃ o, get_node byte_sum s "k" = Ok o ∧ (o = None ↔ ring s = [])) ∧
  (∀ x, get_nodes_for_key byte_sum 5 s "k" 2 ≠ Raise x).
Proof.
  apply (lookups_do_not_raise byte_sum 1 (two_nodes ++ [RemoveNode node_a]) "k" 2 5).
  right. by vm_compute.
Defined.

Lemma ring_without_points_finds_nothing_witness :
  let s := run byte_sum 0 two_nodes in
  ring s = [] ∧ get_node byte_sum s "k" = Ok None ∧
  get_nodes_for_key byte_sum 5 s "k" 2 = Ok [].
Proof.
  apply (ring_without_points_finds_nothing byte_sum 0 two_nodes "k" 2 5). lia.
Defined.

Lemma ring_holds_points_of_members_witness :
  let s := run byte_sum 1 (two_nodes ++ [RemoveNode node_a]) in
  (∀ p, p ∈ ring s ↔ ∃ n, is_Some (nodes s !! n) ∧ p ∈ points byte_sum 1 n) ∧
  (∀ p n, hash2node s !! p = Some n ↔
          is_Some (nodes s !! n) ∧ p ∈ points byte_sum 1 n) ∧
  length (ring s) = Z.to_nat 1 * size (nodes s).
Proof.
  apply (ring_holds_points_of_members byte_sum 1 (two_nodes ++ [RemoveNode node_a])).
  by vm_compute.
Defined.

Lemma second_replica_takes_over_witness :
  get_node byte_sum (remove_node (run byte_sum 1 two_nodes) node_a) "k"
  = Ok (Some (node_b, 11212%Z)).
Proof.
  apply (second_replica_takes_over byte_sum 1 two_nodes "k" 2 5
           node_a node_b 11211%Z 11212%Z []).
  - by vm_compute.
  - by vm_compute.
Defined.

Lemma init_registers_addresses_witness :
  DMC.replication_factor
    (DMC.init byte_sum sim_connect
       [("127.0.0.1", 11211%Z); ("127.0.0.1", 11212%Z)] 1 (-3) 1) = 1%Z.
Proof.
  apply (proj1 (proj2 (proj2
           (init_registers_addresses byte_sum sim_connect
              [("127.0.0.1", 11211%Z); ("127.0.0.1", 11212%Z)] 1 (-3) 1)))).
Defined.

Lemma set_records_successful_nodes_witness :
  let c := demo_client 2 in
  let nodes := [(node_a, 11211%Z); (node_b, 11212%Z)] in
  ∃ success results c' e',
    DMC.set byte_sum (sim_set [11212%Z]) 5 c "k" (PyStr "v") 0 empty_fleet
      = Ok (success, results, c', e') ∧
    DMC.key_map c' !! "k" =
      Some (filter (λ n, results !! n = Some true) nodes.*1) ∧
    (success = true ↔ DMC.key_map c' !! "k" ≠ Some []) ∧
    (∀ k, k ≠ "k" → DMC.key_map c' !! k = DMC.key_map c !! k) ∧
    DMC.hash_ring c' = DMC.hash_ring c ∧
    DMC.replication_factor c' = DMC.replication_factor c.
Proof.
  apply (set_records_successful_nodes byte_sum (sim_set [11212%Z]) 5 (demo_client 2)
           "k" (PyStr "v") 0 empty_fleet [(node_a, 11211%Z); (node_b, 11212%Z)]).
  by vm_compute.
Defined.

Lemma set_then_delete_forgets_key_witness :
  ∃ (c2 : DMC.t Z) (deleted results : gmap string bool),
    DMC.key_map c2 = delete "k" (DMC.key_map (demo_client 2)) ∧
    DMC.hash_ring c2 = DMC.hash_ring (demo_client 2) ∧
    dom deleted = dom results.
Proof.
  eexists _, _, _.
  eapply (set_then_delete_forgets_key byte_sum (sim_set [11212%Z]) (sim_delete [])
            5 (demo_client 2) "k" (PyStr "v") 0 empty_fleet).
  - reflexivity.
  - reflexivity.
Defined.

Lemma distribution_stats_counts_witness :
  let c := DMC.mkClient (run byte_sum 1 two_nodes) 2
             (<["j" := [node_a]]> {["k" := [node_a; node_b]]}) in
  DMC.distribution_stats c !! node_a = Some 2%Z.
Proof.
  intros c.
  apply (proj1 (proj2 (proj2
           (distribution_stats_counts c (map_to_list (DMC.key_map c)) node_a
              (reflexivity _))))).
  by vm_compute.
Defined.

Lemma stats_after_session_witness :
  ∃ c' : DMC.t Z,
    DMC.hash_ring c' = DMC.hash_ring (demo_client 2) ∧
    DMC.replication_factor c' = DMC.replication_factor (demo_client 2) ∧
    (DMC.distribution_stats c' !! node_a = Some 1%Z →
       is_Some (nodes (DMC.hash_ring (demo_client 2)) !! node_a) ∧
       1%Z = Z.of_nat (length (filter (λ kv : string * list string, node_a ∈ kv.2)
                                 (map_to_list (DMC.key_map c')))) ∧
       (1 ≤ 1 ≤ Z.of_nat (size (DMC.key_map c')))%Z).
Proof.
  eexists.
  eapply (stats_after_session byte_sum (sim_set [11212%Z]) (sim_get [11212%Z])
            (sim_delete [11212%Z]) ascii_decode 5 (demo_client 2) empty_fleet
            [DMC.CallSet "k" (PyStr "v") 0; DMC.CallGet "k";
             DMC.CallSet "j" (PyInt 7) 0; DMC.CallDelete "j"]).
  - compute_done.
  - reflexivity.
Defined.

Lemma client_without_points_witness :
  let c := DMC.init byte_sum sim_connect [] 100 1 1 in
  let c1 := DMC.mkClient (DMC.hash_ring c) (DMC.replication_factor c)
              {["k" := []]} in
  DMC.set byte_sum (sim_set []) 0 c "k" (PyStr "v") 0 empty_fleet
    = Ok (false, ∅, c1, empty_fleet) ∧
  DMC.distribution_stats c1 = ∅ ∧
  DMC.get byte_sum (sim_get []) ascii_decode 0 c "k" empty_fleet
    = Ok (None, empty_fleet) ∧
  DMC.delete_key byte_sum (sim_delete []) 0 c "k" empty_fleet = Ok (∅, c, empty_fleet).
Proof.
  apply (client_without_points byte_sum sim_connect (sim_set []) (sim_get [])
           (sim_delete []) ascii_decode [] 100 1 1 0 "k" (PyStr "v") 0 empty_fleet).
  by right.
Defined.

(** * The client's calls on the fleet *)

(** ** The replica-set lookup returns *)

Section lookup_returns.
Context {Client : Type}.
Variable _hash : string → Z.
Implicit Types (s : ConsistentHashRing Client) (ops : list (op Client)).

(** After a history without colliding points the loop of
    [get_nodes_for_key] ends within two laps of the ring, for every key
    and every count. *)
Lemma get_nodes_for_key_returns (V : Z) ops (key : string) (count : Z) (fuel : nat) :
  collision_free _hash (new_ring V) ops = true →
  2 * length (ring (run _hash V ops)) < fuel →
  ∃ found, get_nodes_for_key _hash fuel (run _hash V ops) key count = Ok found.
Proof.
  intros Hfree Hfuel. set (s := run _hash V ops) in *.
  destruct (decide (ring s = [])) as [Hnil|Hne].
  { exists []. unfold get_nodes_for_key. by rewrite Hnil. }
  rewrite get_nodes_for_key_nonempty by done.
  destruct (decide (0 ≤ count)%Z) as [Hcount|Hneg].
  2: { exists []. destruct fuel as [|fuel]; [lia|]. cbn [collect].
       rewrite decide_False; [done|]. simpl. lia. }
  destruct (collision_free_consistent _hash V ops Hfree) as [Hpo Hcov].
  assert (nodes_covered s) as Hcov'.
  { apply Hcov. destruct (decide (1 ≤ V)%Z) as [|HV]; [done|].
    exfalso. apply Hne. apply run_without_points. lia. }
  fold s in Hpo.
  pose proof (bisect_right_le_length (ring s) (_hash key)) as Hidx.
  fold (bisect.bisect (ring s) (_hash key)) in Hidx.
  set (idx := bisect.bisect (ring s) (_hash key)) in *.
  set (len := length (ring s)) in *.
  assert (walk_inv s count [] ∅) as Hinv0.
  { split; [done|]. split; [constructor|]. split; [set_solver|]. split; [simpl; lia|].
    rewrite size_empty. intros Hsz. symmetry in Hsz. apply map_size_empty_iff in Hsz.
    by apply (points_owned_nonempty s). }
  replace fuel with ((len - idx) + (len + (fuel - (2 * len - idx)))) by lia.
  destruct (collect_lap s count Hpo (len - idx) idx [] ∅ (len + (fuel - (2 * len - idx))))
    as [(out & Hout & _)|(found1 & used1 & Hrun1 & Hinv1 & _ & _)]; [lia|done|lia| |].
  { by exists out. }
  rewrite Hrun1. replace (idx + (len - idx)) with len by lia.
  pose proof (collect_wrap (len + (fuel - (2 * len - idx))) s count found1 used1)
    as Hwrap.
  fold len in Hwrap. rewrite Hwrap. clear Hwrap.
  destruct (collect_lap s count Hpo len 0 found1 used1 (fuel - (2 * len - idx)))
    as [(out & Hout & _)|(found2 & used2 & _ & Hinv2 & _ & Hseen)]; [lia|done|lia| |].
  { by exists out. }
  exfalso. destruct Hinv2 as (_ & _ & Hsub & _ & Hsz). apply Hsz.
  rewrite <-size_dom. f_equal. apply set_eq. intros n. split; [apply Hsub|].
  intros [c Hc]%elem_of_dom. specialize (Hcov' n c Hc). simpl in Hcov'.
  apply Exists_exists in Hcov' as (p & Hp & Hn).
  apply list_elem_of_lookup in Hp as [j Hj].
  eapply (Hseen j p n); [|done..]. apply lookup_lt_Some in Hj. unfold len. lia.
Qed.

End lookup_returns.

Lemma zip_with_inj_r {A B C : Type} (f : A → B → C) (l : list A) (k1 k2 : list B) :
  (∀ a b1 b2, f a b1 = f a b2 → b1 = b2) →
  length k1 = length l → length k2 = length l →
  zip_with f l k1 = zip_with f l k2 → k1 = k2.
Proof.
  intros Hinj. revert k1 k2.
  induction l as [|a l IH]; intros [|b1 k1] [|b2 k2] H1 H2 Heq; try done.
  simpl in *. injection Heq as Hhd Htl. f_equal; [by eapply Hinj|].
  apply IH; [lia|lia|done].
Qed.

(** ** [set] and the calls it makes *)

Section set_calls.
Context {Client World : Type}.
Variable _hash : string → Z.
Variable client_set : Client → string → PyVal → Z → World → reply unit * World.
Implicit Types (c : DMC.t Client) (e : DMC.Env World).
Implicit Types (nodes : list (string * Client)).

(** One turn of the loop makes the call, on the fleet as the turns before
    left it. *)
Lemma set_step_call (key : string) (value : PyVal) (ttl : Z)
    (st : DMC.set_state World) (n : string) (cl : Client) :
  let st1 := DMC.set_step client_set key value ttl st (n, cl) in
  let rw := client_set cl key value ttl (DMC.world (DMC.set_env st)) in
  DMC.world (DMC.set_env st1) = rw.2 ∧
  DMC.trace (DMC.set_env st1) = DMC.trace (DMC.set_env st) ++ [SetCall n (returned rw.1)].
Proof.
  unfold DMC.set_step. simpl.
  by destruct (client_set cl key value ttl (DMC.world (DMC.set_env st))) as [[[]|] w].
Qed.

Lemma set_fold_calls (key : string) (value : PyVal) (ttl : Z) nodes
    (st : DMC.set_state World) :
  let st' := foldl (DMC.set_step client_set key value ttl) st nodes in
  let out := call_each (λ cl, client_set cl key value ttl) nodes
               (DMC.world (DMC.set_env st)) in
  DMC.world (DMC.set_env st') = out.2 ∧
  DMC.trace (DMC.set_env st') =
    DMC.trace (DMC.set_env st) ++ zip_with SetCall nodes.*1 (returned <$> out.1) ∧
  length out.1 = length nodes.
Proof.
  revert st. induction nodes as [|[n cl] nodes IH]; intros st; cbn [foldl call_each].
  { simpl. by rewrite app_nil_r. }
  destruct (set_step_call key value ttl st n cl) as [Hw1 Htr1].
  destruct (IH (DMC.set_step client_set key value ttl st (n, cl))) as (Hw & Htr & Hlen).
  rewrite Hw1 in Hw, Htr, Hlen. rewrite Htr1 in Htr. cbn [fst snd].
  split; [done|]. split; [|by simpl; rewrite Hlen].
  rewrite Htr, <-app_assoc. by rewrite !fmap_cons.
Qed.

(** [set] on a replica set: the calls are those of [call_each], and what
    [set] returns is read off their replies. *)
Lemma set_on_replica_set (fuel : nat) c (key : string) (value : PyVal) (ttl : Z)
    e nodes :
  get_nodes_for_key _hash fuel (DMC.hash_ring c) key (DMC.replication_factor c)
    = Ok nodes →
  ∃ success results c' e',
    DMC.set _hash client_set fuel c key value ttl e = Ok (success, results, c', e') ∧
    let out := call_each (λ cl, client_set cl key value ttl) nodes (DMC.world e) in
    DMC.world e' = out.2 ∧
    DMC.trace e' = DMC.trace e ++ zip_with SetCall nodes.*1 (returned <$> out.1) ∧
    (∀ j n r, nodes.*1 !! j = Some n → out.1 !! j = Some r →
       results !! n = Some (returned r)) ∧
    dom results = list_to_set nodes.*1 ∧
    (success = true ↔ ∃ r, r ∈ out.1 ∧ returned r = true) ∧
    (success = true ↔ ∃ n, results !! n = Some true) ∧
    (nodes = [] → success = false).
Proof.
  intros Hnodes. unfold DMC.set. rewrite Hnodes.
  set (st0 := DMC.mkSetState ∅ false [] e).
  destruct (set_fold client_set key value ttl nodes st0)
    as (oks & Hlen & Htr & _ & Hsucc & Hother & Hres).
  destruct (set_fold_calls key value ttl nodes st0) as (Hw & Htr' & Hlen').
  destruct (get_nodes_for_key_sound _ _ _ _ _ _ Hnodes) as [Hnd _].
  specialize (Hres Hnd). simpl in Hw, Htr', Hlen', Htr, Hsucc, Hother.
  set (out := call_each (λ cl, client_set cl key value ttl) nodes (DMC.world e)) in *.
  assert (oks = returned <$> out.1) as ->.
  { apply (zip_with_inj_r SetCall nodes.*1).
    - by intros a b1 b2 [=].
    - by rewrite length_fmap.
    - by rewrite !length_fmap.
    - rewrite Htr in Htr'. by apply app_inv_head in Htr'. }
  assert (DMC.set_success (foldl (DMC.set_step client_set key value ttl) st0 nodes)
            = true ↔ ∃ r, r ∈ out.1 ∧ returned r = true) as Hsucc'.
  { rewrite Hsucc, list_elem_of_fmap. split.
    - intros [[=]|(r & Hr & Hin)]. by exists r.
    - intros (r & Hin & Hr). right. by exists r. }
  eexists _, _, _, _. split; [done|]. cbn zeta.
  split; [done|]. split; [done|]. split; [|split; [|split; [done|split]]].
  - intros j n r Hj Hr. apply (Hres j); [done|]. by rewrite list_lookup_fmap, Hr.
  - apply set_eq. intros n. rewrite elem_of_dom, elem_of_list_to_set. split.
    + intros Hsome. destruct (decide (n ∈ nodes.*1)) as [|Hn]; [done|].
      rewrite Hother in Hsome by done. rewrite lookup_empty in Hsome. by destruct Hsome.
    + intros [j Hj]%list_elem_of_lookup.
      destruct (lookup_lt_is_Some_2 (returned <$> out.1) j) as [ok Hok].
      { apply lookup_lt_Some in Hj. rewrite length_fmap in Hj. rewrite length_fmap. lia. }
      exists ok. by eapply Hres.
  - rewrite Hsucc'. split.
    + intros (r & [j Hj]%list_elem_of_lookup & Hr).
      destruct (lookup_lt_is_Some_2 nodes.*1 j) as [n Hn].
      { apply lookup_lt_Some in Hj. rewrite length_fmap. lia. }
      exists n. rewrite <-Hr. apply (Hres j); [done|]. by rewrite list_lookup_fmap, Hj.
    + intros [n Hn]. destruct (decide (n ∈ nodes.*1)) as [Hin|Hnin].
      * apply list_elem_of_lookup in Hin as [j Hj].
        destruct (lookup_lt_is_Some_2 out.1 j) as [r Hr].
        { apply lookup_lt_Some in Hj. rewrite length_fmap in Hj. lia. }
        exists r. split; [by eapply list_elem_of_lookup_2|].
        assert (returned <$> out.1 !! j = Some (returned r)) as Hok.
        { by rewrite Hr. }
        rewrite <-list_lookup_fmap in Hok.
        rewrite (Hres j n _ Hj Hok) in Hn. by injection Hn.
      * rewrite Hother in Hn by done. by rewrite lookup_empty in Hn.
  - intros ->. apply not_true_is_false. rewrite Hsucc'.
    intros (r & Hin & _). by apply elem_of_nil in Hin.
Qed.

(** C4. On a client whose ring has no colliding points, [set] returns for
    every key, value and ttl.  It has made the call [client.set] on every
    node of the replica set, in the order of the set and each on the
    fleet as the call before left it, whatever the earlier calls
    answered; the outcome map has an entry for each of these nodes and
    for no other name, and the entry says whether the call on that node
    returned; [success] is [True] exactly when some call returned, so it
    is [False] on an empty replica set. *)
Theorem set_per_node_outcomes (V : Z) (ops : list (op Client)) (fuel : nat) c
    (key : string) (value : PyVal) (ttl : Z) e :
  DMC.hash_ring c = run _hash V ops →
  collision_free _hash (new_ring V) ops = true →
  2 * length (ring (DMC.hash_ring c)) < fuel →
  ∃ nodes success results c' e',
    get_nodes_for_key _hash fuel (DMC.hash_ring c) key (DMC.replication_factor c)
      = Ok nodes ∧
    DMC.set _hash client_set fuel c key value ttl e = Ok (success, results, c', e') ∧
    let out := call_each (λ cl, client_set cl key value ttl) nodes (DMC.world e) in
    DMC.world e' = out.2 ∧
    DMC.trace e' = DMC.trace e ++ zip_with SetCall nodes.*1 (returned <$> out.1) ∧
    (∀ j n r, nodes.*1 !! j = Some n → out.1 !! j = Some r →
       results !! n = Some (returned r)) ∧
    dom results = list_to_set nodes.*1 ∧
    (success = true ↔ ∃ r, r ∈ out.1 ∧ returned r = true) ∧
    (success = true ↔ ∃ n, results !! n = Some true) ∧
    (nodes = [] → success = false).
Proof.
  intros Hring Hfree Hfuel. rewrite Hring in Hfuel.
  destruct (get_nodes_for_key_returns _hash V ops key (DMC.replication_factor c) fuel
              Hfree Hfuel) as [nodes Hnodes].
  rewrite <-Hring in Hnodes.
  destruct (set_on_replica_set fuel c key value ttl e nodes Hnodes)
    as (success & results & c' & e' & Hset & Hrest).
  by exists nodes, success, results, c', e'.
Qed.

End set_calls.

(** ** [delete] and the calls it makes *)

Section delete_calls.
Context {Client World : Type}.
Variable _hash : string → Z.
Variable client_delete : Client → string → World → reply unit * World.
Implicit Types (c : DMC.t Client) (e : DMC.Env World).
Implicit Types (nodes : list (string * Client)).

Lemma delete_step_call (key : string) (st : gmap string bool * DMC.Env World)
    (n : string) (cl : Client) :
  let st1 := DMC.delete_step client_delete key st (n, cl) in
  let rw := client_delete cl key (DMC.world st.2) in
  DMC.world st1.2 = rw.2 ∧
  DMC.trace st1.2 = DMC.trace st.2 ++ [DeleteCall n (returned rw.1)].
Proof.
  unfold DMC.delete_step. simpl.
  by destruct (client_delete cl key (DMC.world st.2)) as [[[]|] w].
Qed.

Lemma delete_fold_calls (key : string) nodes (st : gmap string bool * DMC.Env World) :
  let st' := foldl (DMC.delete_step client_delete key) st nodes in
  let out := call_each (λ cl, client_delete cl key) nodes (DMC.world st.2) in
  DMC.world st'.2 = out.2 ∧
  DMC.trace st'.2 = DMC.trace st.2 ++ zip_with DeleteCall nodes.*1 (returned <$> out.1) ∧
  length out.1 = length nodes.
Proof.
  revert st. induction nodes as [|[n cl] nodes IH]; intros st; cbn [foldl call_each].
  { simpl. by rewrite app_nil_r. }
  destruct (delete_step_call key st n cl) as [Hw1 Htr1].
  destruct (IH (DMC.delete_step client_delete key st (n, cl))) as (Hw & Htr & Hlen).
  rewrite Hw1 in Hw, Htr, Hlen. rewrite Htr1 in Htr. cbn [fst snd].
  split; [done|]. split; [|by simpl; rewrite Hlen].
  rewrite Htr, <-app_assoc. by rewrite !fmap_cons.
Qed.

Lemma delete_on_replica_set (fuel : nat) c (key : string) e nodes :
  get_nodes_for_key _hash fuel (DMC.hash_ring c) key (DMC.replication_factor c)
    = Ok nodes →
  ∃ results c' e',
    DMC.delete_key _hash client_delete fuel c key e = Ok (results, c', e') ∧
    let out := call_each (λ cl, client_delete cl key) nodes (DMC.world e) in
    DMC.world e' = out.2 ∧
    DMC.trace e' = DMC.trace e ++ zip_with DeleteCall nodes.*1 (returned <$> out.1) ∧
    (∀ j n r, nodes.*1 !! j = Some n → out.1 !! j = Some r →
       results !! n = Some (returned r)) ∧
    dom results = list_to_set nodes.*1 ∧
    DMC.key_map c' = delete key (DMC.key_map c) ∧
    DMC.hash_ring c' = DMC.hash_ring c ∧
    DMC.replication_factor c' = DMC.replication_factor c.
Proof.
  intros Hnodes. unfold DMC.delete_key. rewrite Hnodes.
  destruct (delete_fold client_delete key nodes (∅, e))
    as (oks & Hlen & Htr & Hother & Hres).
  destruct (delete_fold_calls key nodes (∅, e)) as (Hw & Htr' & Hlen').
  destruct (get_nodes_for_key_sound _ _ _ _ _ _ Hnodes) as [Hnd _].
  specialize (Hres Hnd). simpl in Hw, Htr', Hlen', Htr, Hother.
  set (out := call_each (λ cl, client_delete cl key) nodes (DMC.world e)) in *.
  assert (oks = returned <$> out.1) as ->.
  { apply (zip_with_inj_r DeleteCall nodes.*1).
    - by intros a b1 b2 [=].
    - by rewrite length_fmap.
    - by rewrite !length_fmap.
    - rewrite Htr in Htr'. by apply app_inv_head in Htr'. }
  eexists _, _, _. split; [done|]. cbn zeta.
  split; [done|]. split; [done|]. split; [|split; [|done]].
  - intros j n r Hj Hr. apply (Hres j); [done|]. by rewrite list_lookup_fmap, Hr.
  - apply set_eq. intros n. rewrite elem_of_dom, elem_of_list_to_set. split.
    + intros Hsome. destruct (decide (n ∈ nodes.*1)) as [|Hn]; [done|].
      rewrite Hother in Hsome by done. rewrite lookup_empty in Hsome. by destruct Hsome.
    + intros [j Hj]%list_elem_of_lookup.
      destruct (lookup_lt_is_Some_2 (returned <$> out.1) j) as [ok Hok].
      { apply lookup_lt_Some in Hj. rewrite length_fmap in Hj. rewrite length_fmap. lia. }
      exists ok. by eapply Hres.
Qed.

(** C9. On a client whose ring has no colliding points, [delete] returns
    for every key.  It has made the call [client.delete] on every node of
    the replica set, in the order of the set and each on the fleet as
    the call before left it, whatever the earlier calls answered; the
    outcome map it returns has an entry for each of these nodes and for
    no other name, saying whether the call on that node returned;
    afterwards the bookkeeping has no entry for [key], whatever the
    outcomes, and the entries of all other keys are as before. *)
Theorem delete_per_node_outcomes (V : Z) (ops : list (op Client)) (fuel : nat) c
    (key : string) e :
  DMC.hash_ring c = run _hash V ops →
  collision_free _hash (new_ring V) ops = true →
  2 * length (ring (DMC.hash_ring c)) < fuel →
  ∃ nodes results c' e',
    get_nodes_for_key _hash fuel (DMC.hash_ring c) key (DMC.replication_factor c)
      = Ok nodes ∧
    DMC.delete_key _hash client_delete fuel c key e = Ok (results, c', e') ∧
    let out := call_each (λ cl, client_delete cl key) nodes (DMC.world e) in
    DMC.world e' = out.2 ∧
    DMC.trace e' = DMC.trace e ++ zip_with DeleteCall nodes.*1 (returned <$> out.1) ∧
    (∀ j n r, nodes.*1 !! j = Some n → out.1 !! j = Some r →
       results !! n = Some (returned r)) ∧
    dom results = list_to_set nodes.*1 ∧
    DMC.key_map c' !! key = None ∧
    (∀ k, k ≠ key → DMC.key_map c' !! k = DMC.key_map c !! k).
Proof.
  intros Hring Hfree Hfuel. rewrite Hring in Hfuel.
  destruct (get_nodes_for_key_returns _hash V ops key (DMC.replication_factor c) fuel
              Hfree Hfuel) as [nodes Hnodes].
  rewrite <-Hring in Hnodes.
  destruct (delete_on_replica_set fuel c key e nodes Hnodes)
    as (results & c' & e' & Hdel & Hw & Htr & Hres & Hdom & Hmap & _).
  exists nodes, results, c', e'. split; [done|]. split; [done|]. cbn zeta.
  split; [done|]. split; [done|]. split; [done|]. split; [done|].
  rewrite Hmap. split; [apply lookup_delete_eq|].
  intros k Hk. by rewrite lookup_delete_ne.
Qed.

End delete_calls.

(** ** [get] and the calls it makes *)

Section get_calls.
Context {Client World : Type}.
Variable _hash : string → Z.
Variable client_get : Client → string → World → reply (option PyVal) * World.
Variable decode : string → option string.
Implicit Types (c : DMC.t Client) (e : DMC.Env World).
Implicit Types (nodes asked pre rest : list (string * Client)).

(** The loop of [get] calls the nodes of a prefix of the list: all of it
    when every call misses, and up to the first hit otherwise. *)
Lemma get_loop_calls (key : string) nodes e :
  ∃ asked rest,
    nodes = asked ++ rest ∧
    let out := call_each (λ cl, client_get cl key) asked (DMC.world e) in
    let fin := DMC.get_loop client_get decode key nodes e in
    DMC.world fin.2 = out.2 ∧
    DMC.trace fin.2 = DMC.trace e ++ zip_with GetCall asked.*1 out.1 ∧
    match fin.1 with
    | None => rest = [] ∧ Forall is_miss out.1
    | Some r =>
      ∃ before v, out.1 = before ++ [Returned (Some v)] ∧ Forall is_miss before ∧
                  r = DMC.present_value decode v
    end.
Proof.
  revert e. induction nodes as [|[n cl] nodes IH]; intros e.
  { exists [], []. simpl. by rewrite app_nil_r. }
  cbn [DMC.get_loop].
  destruct (client_get cl key (DMC.world e)) as [r w] eqn:Hcall.
  set (e1 := {| DMC.world := w; DMC.trace := DMC.trace e ++ [GetCall n r] |}).
  assert (∀ asked,
            call_each (λ cl, client_get cl key) ((n, cl) :: asked) (DMC.world e) =
            (r :: (call_each (λ cl, client_get cl key) asked w).1,
             (call_each (λ cl, client_get cl key) asked w).2)) as Hcons.
  { intros asked. cbn [call_each snd]. by rewrite Hcall. }
  destruct r as [[v|]|].
  - exists [(n, cl)], nodes. split; [done|]. cbn zeta. rewrite Hcons. simpl.
    split; [done|]. split; [done|]. exists [], v. by split.
  - destruct (IH e1) as (asked & rest & -> & Hw & Htr & Hres).
    exists ((n, cl) :: asked), rest. split; [done|]. cbn zeta in *.
    rewrite Hcons. cbn [fst snd]. split; [done|].
    split; [by rewrite Htr; simpl; rewrite <-app_assoc|].
    destruct (DMC.get_loop client_get decode key (asked ++ rest) e1).1 as [r|].
    + destruct Hres as (before & v & Hout & Hbefore & ->). simpl in Hout.
      exists (Returned None :: before), v. rewrite Hout. split; [done|].
      split; [|done]. constructor; [by left|done].
    + destruct Hres as [-> Hall]. split; [done|]. constructor; [by left|done].
  - destruct (IH e1) as (asked & rest & -> & Hw & Htr & Hres).
    exists ((n, cl) :: asked), rest. split; [done|]. cbn zeta in *.
    rewrite Hcons. cbn [fst snd]. split; [done|].
    split; [by rewrite Htr; simpl; rewrite <-app_assoc|].
    destruct (DMC.get_loop client_get decode key (asked ++ rest) e1).1 as [r|].
    + destruct Hres as (before & v & Hout & Hbefore & ->). simpl in Hout.
      exists (Raised :: before), v. rewrite Hout. split; [done|].
      split; [|done]. constructor; [by right|done].
    + destruct Hres as [-> Hall]. split; [done|]. constructor; [by right|done].
Qed.

(** The loop of [get] stops at the first node that holds a value. *)
Lemma get_loop_first_hit (key : string) pre (n : string) (cl : Client) rest
    (v : PyVal) (w' : World) e :
  let before := call_each (λ cl, client_get cl key) pre (DMC.world e) in
  Forall is_miss before.1 →
  client_get cl key before.2 = (Returned (Some v), w') →
  DMC.get_loop client_get decode key (pre ++ (n, cl) :: rest) e =
  (Some (DMC.present_value decode v),
   {| DMC.world := w';
      DMC.trace := DMC.trace e ++ zip_with GetCall pre.*1 before.1
                     ++ [GetCall n (Returned (Some v))] |}).
Proof.
  revert e. induction pre as [|[m cm] pre IH]; intros e; cbn zeta.
  { simpl. intros _ ->. done. }
  cbn [call_each fst snd app DMC.get_loop].
  destruct (client_get cm key (DMC.world e)) as [r w] eqn:Hcall. cbn [fst snd].
  intros [Hmiss Hall]%Forall_cons Hhit.
  set (e1 := {| DMC.world := w; DMC.trace := DMC.trace e ++ [GetCall m r] |}).
  specialize (IH e1 Hall Hhit).
  destruct Hmiss as [-> | ->]; rewrite IH; unfold e1; simpl;
    by rewrite <-!app_assoc.
Qed.

(** C5. On a client whose ring has no colliding points, [get] returns for
    every key, so nothing is raised to the caller.  Its calls are
    [client.get] on the nodes of a prefix [asked] of the replica set, in
    the order of the set and each on the fleet as the call before left
    it.  If [get] returns a value, the last of these calls returned a
    value that is not [None] and [get] hands it back (decoded when it is
    bytes that decode), every earlier call returned [None] or raised, and
    the nodes after [asked] were not called; if it returns [None], every
    node of the replica set was called and each call returned [None] or
    raised; so an empty replica set gives [None]. *)
Theorem get_walks_in_priority_order (V : Z) (ops : list (op Client)) (fuel : nat) c
    (key : string) e :
  DMC.hash_ring c = run _hash V ops →
  collision_free _hash (new_ring V) ops = true →
  2 * length (ring (DMC.hash_ring c)) < fuel →
  ∃ nodes asked rest result e',
    get_nodes_for_key _hash fuel (DMC.hash_ring c) key (DMC.replication_factor c)
      = Ok nodes ∧
    DMC.get _hash client_get decode fuel c key e = Ok (result, e') ∧
    nodes = asked ++ rest ∧
    let out := call_each (λ cl, client_get cl key) asked (DMC.world e) in
    DMC.world e' = out.2 ∧
    DMC.trace e' = DMC.trace e ++ zip_with GetCall asked.*1 out.1 ∧
    match result with
    | None => rest = [] ∧ Forall is_miss out.1
    | Some r =>
      ∃ before v, out.1 = before ++ [Returned (Some v)] ∧ Forall is_miss before ∧
                  r = DMC.present_value decode v
    end ∧
    (nodes = [] → result = None).
Proof.
  intros Hring Hfree Hfuel. rewrite Hring in Hfuel.
  destruct (get_nodes_for_key_returns _hash V ops key (DMC.replication_factor c) fuel
              Hfree Hfuel) as [nodes Hnodes].
  rewrite <-Hring in Hnodes.
  destruct (get_loop_calls key nodes e) as (asked & rest & Happ & Hw & Htr & Hres).
  destruct (DMC.get_loop client_get decode key nodes e) as [result e'] eqn:Hloop.
  exists nodes, asked, rest, result, e'. split; [done|].
  split; [by unfold DMC.get; rewrite Hnodes, Hloop|].
  split; [done|]. cbn zeta. split; [done|]. split; [done|]. split; [done|].
  intros ->. simpl in Hloop. by injection Hloop as <- _.
Qed.

(** C10. On a client whose ring has no colliding points, take a node of
    the replica set such that the calls [client.get] on the nodes before
    it, made in order, all return [None] or raise, and such that the call
    on the node itself returns a value [v] that is not [None].  Then
    [get] returns, that call is the last one it makes, and what it
    returns is: the decoded text when [v] is bytes that decode (so not
    the stored bytes themselves); [v] as it is when [v] is bytes that do
    not decode; [v] as it is when [v] is not bytes. *)
Theorem get_decodes_bytes (V : Z) (ops : list (op Client)) (fuel : nat) c
    (key : string) e :
  DMC.hash_ring c = run _hash V ops →
  collision_free _hash (new_ring V) ops = true →
  2 * length (ring (DMC.hash_ring c)) < fuel →
  ∃ nodes,
    get_nodes_for_key _hash fuel (DMC.hash_ring c) key (DMC.replication_factor c)
      = Ok nodes ∧
    ∀ pre (n : string) (cl : Client) rest (v : PyVal) (w' : World),
      nodes = pre ++ (n, cl) :: rest →
      let before := call_each (λ cl, client_get cl key) pre (DMC.world e) in
      Forall is_miss before.1 →
      client_get cl key before.2 = (Returned (Some v), w') →
      ∃ r e',
        DMC.get _hash client_get decode fuel c key e = Ok (Some r, e') ∧
        DMC.world e' = w' ∧
        DMC.trace e' = DMC.trace e ++ zip_with GetCall pre.*1 before.1
                         ++ [GetCall n (Returned (Some v))] ∧
        match v with
        | PyBytes b =>
          match decode b with
          | Some text => r = PyStr text ∧ r ≠ v
          | None => r = v
          end
        | _ => r = v
        end.
Proof.
  intros Hring Hfree Hfuel. rewrite Hring in Hfuel.
  destruct (get_nodes_for_key_returns _hash V ops key (DMC.replication_factor c) fuel
              Hfree Hfuel) as [nodes Hnodes].
  rewrite <-Hring in Hnodes. exists nodes. split; [done|].
  intros pre n cl rest v w' -> before Hmiss Hhit.
  eexists _, _. split.
  - unfold DMC.get. rewrite Hnodes.
    by rewrite (get_loop_first_hit key pre n cl rest v w' e Hmiss Hhit).
  - simpl. split; [done|]. split; [done|].
    destruct v as [b| |]; simpl; [|done..]. by destruct (decode b).
Qed.

End get_calls.

(** ** The client's calls on the concrete fleet *)

Lemma set_per_node_outcomes_witness :
  let c := demo_client 2 in
  ∃ nodes success results c' e',
    get_nodes_for_key byte_sum 5 (DMC.hash_ring c) "k" (DMC.replication_factor c)
      = Ok nodes ∧
    DMC.set byte_sum (sim_set [11212%Z]) 5 c "k" (PyStr "v") 0 empty_fleet
      = Ok (success, results, c', e') ∧
    let out := call_each (λ cl, sim_set [11212%Z] cl "k" (PyStr "v") 0) nodes
                 (DMC.world empty_fleet) in
    DMC.world e' = out.2 ∧
    DMC.trace e' =
      DMC.trace empty_fleet ++ zip_with SetCall nodes.*1 (returned <$> out.1) ∧
    (∀ j n r, nodes.*1 !! j = Some n → out.1 !! j = Some r →
       results !! n = Some (returned r)) ∧
    dom results = list_to_set nodes.*1 ∧
    (success = true ↔ ∃ r, r ∈ out.1 ∧ returned r = true) ∧
    (success = true ↔ ∃ n, results !! n = Some true) ∧
    (nodes = [] → success = false).
Proof.
  apply (set_per_node_outcomes byte_sum (sim_set [11212%Z]) 1 two_nodes 5
           (demo_client 2) "k" (PyStr "v") 0 empty_fleet).
  - by vm_compute.
  - by vm_compute.
  - vm_compute. lia.
Defined.

Lemma delete_per_node_outcomes_witness :
  let c := DMC.mkClient (DMC.hash_ring (demo_client 2)) 2
             {[ "k" := [node_a]; "user" := [node_b] ]} in
  ∃ nodes results c' e',
    get_nodes_for_key byte_sum 5 (DMC.hash_ring c) "k" (DMC.replication_factor c)
      = Ok nodes ∧
    DMC.delete_key byte_sum (sim_delete [11212%Z]) 5 c "k" empty_fleet
      = Ok (results, c', e') ∧
    let out := call_each (λ cl, sim_delete [11212%Z] cl "k") nodes
                 (DMC.world empty_fleet) in
    DMC.world e' = out.2 ∧
    DMC.trace e' =
      DMC.trace empty_fleet ++ zip_with DeleteCall nodes.*1 (returned <$> out.1) ∧
    (∀ j n r, nodes.*1 !! j = Some n → out.1 !! j = Some r →
       results !! n = Some (returned r)) ∧
    dom results = list_to_set nodes.*1 ∧
    DMC.key_map c' !! "k" = None ∧
    (∀ k, k ≠ "k" → DMC.key_map c' !! k = DMC.key_map c !! k).
Proof.
  intros c.
  apply (delete_per_node_outcomes byte_sum (sim_delete [11212%Z]) 1 two_nodes 5
           c "k" empty_fleet).
  - by vm_compute.
  - by vm_compute.
  - vm_compute. lia.
Defined.

Lemma get_walks_in_priority_order_witness :
  let c := demo_client 2 in
  let e := DMC.mkEnv [(11212%Z, "k", PyBytes "v")] [] in
  ∃ nodes asked rest result e',
    get_nodes_for_key byte_sum 5 (DMC.hash_ring c) "k" (DMC.replication_factor c)
      = Ok nodes ∧
    DMC.get byte_sum (sim_get [11211%Z]) ascii_decode 5 c "k" e = Ok (result, e') ∧
    nodes = asked ++ rest ∧
    let out := call_each (λ cl, sim_get [11211%Z] cl "k") asked (DMC.world e) in
    DMC.world e' = out.2 ∧
    DMC.trace e' = DMC.trace e ++ zip_with GetCall asked.*1 out.1 ∧
    match result with
    | None => rest = [] ∧ Forall is_miss out.1
    | Some r =>
      ∃ before v, out.1 = before ++ [Returned (Some v)] ∧ Forall is_miss before ∧
                  r = DMC.present_value ascii_decode v
    end ∧
    (nodes = [] → result = None).
Proof.
  intros c e.
  apply (get_walks_in_priority_order byte_sum (sim_get [11211%Z]) ascii_decode
           1 two_nodes 5 (demo_client 2) "k" e).
  - by vm_compute.
  - by vm_compute.
  - vm_compute. lia.
Defined.

Lemma get_decodes_bytes_witness :
  let e := DMC.mkEnv [(11212%Z, "k", PyBytes "v")] [] in
  ∃ r e',
    DMC.get byte_sum (sim_get [11211%Z]) ascii_decode 5 (demo_client 2) "k" e
      = Ok (Some r, e') ∧
    DMC.world e' = DMC.world e ∧
    DMC.trace e' =
      [GetCall node_a Raised; GetCall node_b (Returned (Some (PyBytes "v")))] ∧
    r = PyStr "v" ∧ r ≠ PyBytes "v".
Proof.
  intros e.
  destruct (get_decodes_bytes byte_sum (sim_get [11211%Z]) ascii_decode
              1 two_nodes 5 (demo_client 2) "k" e) as (nodes & Hnodes & Hget).
  - by vm_compute.
  - by vm_compute.
  - vm_compute. lia.
  - vm_compute in Hnodes. injection Hnodes as <-.
    destruct (Hget [(node_a, 11211%Z)] node_b 11212%Z [] (PyBytes "v") (DMC.world e))
      as (r & e' & Hr & Hw & Htr & Hdec).
    + reflexivity.
    + vm_compute. constructor; [by right|constructor].
    + by vm_compute.
    + exists r, e'. split; [done|]. split; [done|]. split; [exact Htr|exact Hdec].
Defined.
